(** * Boukiane: prompt composition, image geometry and generation history

    A shallow embedding of the logic of the application:
    - the prompt composer of [App.tsx] (the effect that rebuilds the
      prompt from the scene state),
    - [parseAspectRatio] and [handleApply] of [components/ImageEditor.tsx],
    - [parseDataUrl] and [resizeImage] of [components/ImageUploader.tsx],
    - the history effects and handlers of [App.tsx],
    - the upload and the previews of [components/ImageUploader.tsx],
    - the list callbacks and [handleReorder] of [App.tsx], and the names
      and the drag and drop of [components/EditableElementList.tsx],
    - the options of [constants.ts],
    - the requests of [handleGenerateClick] and
      [handleApplyStandaloneEdit] of [App.tsx],
    - the downloads and the views of
      [components/GeneratedImageDisplay.tsx].

    Conventions.
    - A JavaScript string is a Rocq [string] holding its UTF-8 bytes; the
      ASCII delimiters the code searches for ([:], [,], [;]) are single
      bytes, and the white-space table below lists the UTF-8 encodings of
      the ECMAScript white-space and line-terminator code points.
    - A JavaScript number is an exact rational extended with [NaN] and the
      two infinities.  The rounding of binary64 arithmetic (and with it
      overflow and underflow) and the sign of zero are not represented.
    - [null] is [None]; an exception is an explicit error result. *)

From Stdlib Require Import ZArith QArith Qround Qcanon Ascii String DecimalString.
From Stdlib Require DecimalPos.
From stdpp Require Import gmap strings list sorting.

Local Open Scope Z_scope.
Local Open Scope stdpp_scope.

Set Warnings "-register-all".

(** ** JavaScript strings *)

Module JSString.

(** One-byte white space: TAB, LF, VT, FF, CR, SP. *)
Definition ws1 (c : ascii) : bool :=
  let n := N_of_ascii c in
  ((9 <=? n) && (n <=? 13) || (n =? 32))%N.

(** Two-byte white space: U+00A0. *)
Definition ws2 (c1 c2 : ascii) : bool :=
  match c1, c2 with
  | "194", "160" => true
  | _, _ => false
  end%char.

(** Three-byte white space: U+1680, U+2000..U+200A, U+2028, U+2029,
    U+202F, U+205F, U+3000, U+FEFF. *)
Definition ws3 (c1 c2 c3 : ascii) : bool :=
  match c1, c2, c3 with
  | "225", "154", "128" => true
  | "226", "128", ("128" | "129" | "130" | "131" | "132" | "133"
                   | "134" | "135" | "136" | "137" | "138") => true
  | "226", "128", ("168" | "169" | "175") => true
  | "226", "129", "159" => true
  | "227", "128", "128" => true
  | "239", "187", "191" => true
  | _, _, _ => false
  end%char.

(** The one-character string holding a double quote (U+0022). *)
Definition dq : string := String "034"%char EmptyString.

(** [String.prototype.trimStart]. *)
Fixpoint trimStart (s : string) : string :=
  match s with
  | String c1 r1 =>
      if ws1 c1 then trimStart r1 else
      match r1 with
      | String c2 r2 =>
          if ws2 c1 c2 then trimStart r2 else
          match r2 with
          | String c3 r3 => if ws3 c1 c2 c3 then trimStart r3 else s
          | EmptyString => s
          end
      | EmptyString => s
      end
  | EmptyString => s
  end.

(** The string is a (possibly empty) run of white-space characters. *)
Fixpoint allWhite (s : string) : bool :=
  match s with
  | String c1 r1 =>
      if ws1 c1 then allWhite r1 else
      match r1 with
      | String c2 r2 =>
          if ws2 c1 c2 then allWhite r2 else
          match r2 with
          | String c3 r3 => if ws3 c1 c2 c3 then allWhite r3 else false
          | EmptyString => false
          end
      | EmptyString => false
      end
  | EmptyString => true
  end.

(** [String.prototype.trimEnd]: cut the string where the remainder is a
    run of white space. *)
Fixpoint trimEnd (s : string) : string :=
  match s with
  | String c r => if allWhite s then EmptyString else String c (trimEnd r)
  | EmptyString => EmptyString
  end.

(** [String.prototype.trim]. *)
Definition trim (s : string) : string := trimEnd (trimStart s).

(** Truthiness of a string: every string but the empty one. *)
Definition truthy (s : string) : bool :=
  match s with
  | EmptyString => false
  | String _ _ => true
  end.

(** [Array.prototype.join] on an array of strings. *)
Fixpoint join (sep : string) (l : list string) : string :=
  match l with
  | [] => ""
  | [x] => x
  | x :: rest => x +:+ sep +:+ join sep rest
  end.

(** [String.prototype.startsWith]. *)
Fixpoint startsWith (s p : string) : bool :=
  match p, s with
  | EmptyString, _ => true
  | String a p', String b s' => if Ascii.eqb a b then startsWith s' p' else false
  | String _ _, EmptyString => false
  end.

(** [s.split(sep)] for a one-character separator: the pieces between
    the separators, in order; never the empty array. *)
Fixpoint split (sep : ascii) (s : string) : list string :=
  match s with
  | EmptyString => [EmptyString]
  | String c r =>
      if Ascii.eqb c sep then EmptyString :: split sep r
      else match split sep r with
           | p :: ps => String c p :: ps
           | [] => [String c EmptyString]
           end
  end.

End JSString.
Import JSString.

(** ** Blank texts *)

(** A blank text: empty, or white-space characters only. *)
Inductive blank : string → Prop :=
| blank_empty : blank EmptyString
| blank_ws1 c s : ws1 c = true → blank s → blank (String c s)
| blank_ws2 c1 c2 s :
    ws2 c1 c2 = true → blank s → blank (String c1 (String c2 s))
| blank_ws3 c1 c2 c3 s :
    ws3 c1 c2 c3 = true → blank s →
    blank (String c1 (String c2 (String c3 s))).

(** A property of every string, from its being inherited from the three
    tails [trimStart] and [allWhite] recurse on. *)
Lemma string_ind3 (P : string → Prop) :
  (∀ s, (∀ c1 r1, s = String c1 r1 → P r1) →
        (∀ c1 c2 r2, s = String c1 (String c2 r2) → P r2) →
        (∀ c1 c2 c3 r3, s = String c1 (String c2 (String c3 r3)) → P r3) →
        P s) →
  ∀ s, P s.
Proof.
  intros step s.
  assert (H : P s ∧ (∀ c r, s = String c r → P r)
              ∧ (∀ c c' r, s = String c (String c' r) → P r)).
  { induction s as [|a s (IH0 & IH1 & IH2)].
    - split; [|split]; [|discriminate..].
      apply step; discriminate.
    - assert (Hr : ∀ c r, String a s = String c r → P r) by (intros ?? [= _ <-]; done).
      assert (Hr2 : ∀ c c' r, String a s = String c (String c' r) → P r)
        by (intros ??? [= _ ->]; eauto).
      split; [|split]; [|done..].
      apply step; [done..|]. intros ???? [= _ ->]. eauto. }
  apply H.
Qed.

(** [allWhite] decides blankness. *)
Lemma allWhite_blank (s : string) : allWhite s = true ↔ blank s.
Proof.
  split.
  - induction s as [s IH1 IH2 IH3] using string_ind3.
    destruct s as [|c1 r1]; [constructor|]. simpl.
    destruct (ws1 c1) eqn:E1; [intros; apply blank_ws1; eauto|].
    destruct r1 as [|c2 r2]; [done|].
    destruct (ws2 c1 c2) eqn:E2; [intros; apply blank_ws2; eauto|].
    destruct r2 as [|c3 r3]; [done|].
    destruct (ws3 c1 c2 c3) eqn:E3; [intros; apply blank_ws3; eauto|done].
  - induction 1 as [|c s Hc _ IH|c1 c2 s Hc _ IH|c1 c2 c3 s Hc _ IH];
      [done|simpl; by rewrite Hc|..].
    + simpl. destruct (ws1 c1) eqn:E1; [|by rewrite Hc].
      revert Hc. unfold ws2. destruct c1 as [[] [] [] [] [] [] [] []]; try done.
    + simpl. destruct (ws1 c1) eqn:E1.
      { revert Hc. unfold ws3.
        destruct c1 as [[] [] [] [] [] [] [] []]; try done. }
      destruct (ws2 c1 c2) eqn:E2; [|by rewrite Hc].
      revert Hc E2. unfold ws2, ws3.
      destruct c1 as [[] [] [] [] [] [] [] []]; try done.
Qed.

Global Instance blank_dec (s : string) : Decision (blank s).
Proof.
  destruct (allWhite s) eqn:E.
  - left. by apply allWhite_blank.
  - right. intros H%allWhite_blank. congruence.
Defined.



(** ** Data model ([types.ts] is not part of the sources; the records
    follow the uses in [App.tsx] and the components) *)

(** [{ base64, mimeType }].  [base64] is [parts[1]] of a data URL, which
    is [undefined] (here [None]) when the URL has no comma. *)
Record ImageFile := mkImageFile {
  base64 : option string;
  mimeType : string
}.

(** A character or an object entry. *)
Record Character := mkCharacter {
  id : Z;
  name : string;
  image : option ImageFile
}.

Inductive Tab := generate | edit.

Global Instance ImageFile_eq_dec : EqDecision ImageFile.
Proof. solve_decision. Defined.
Global Instance Character_eq_dec : EqDecision Character.
Proof. solve_decision. Defined.
Global Instance Tab_eq_dec : EqDecision Tab.
Proof. solve_decision. Defined.

(** ** The prompt generator of the Generate tab ([App.tsx], the third
    effect of [App]) *)

Module Prompt.

(** The state the effect reads, and the prompt it writes. *)
Record State := mkState {
  activeTab : Tab;
  characters : list Character;
  additionalElements : list Character;
  sceneDescription : string;
  sceneLocationImage : option ImageFile;
  styleImage : option ImageFile;
  aspectRatio : string;
  artisticStyle : string;
  lightingStyle : string;
  cameraPerspective : string;
  generatedPrompt : string
}.

Definition setGeneratedPrompt (p : string) (st : State) : State :=
  mkState (activeTab st) (characters st) (additionalElements st)
          (sceneDescription st) (sceneLocationImage st) (styleImage st)
          (aspectRatio st) (artisticStyle st) (lightingStyle st)
          (cameraPerspective st) p.

(** The state [App] starts in: the initial values of its [useState]
    calls, the selects on the first option of their lists. *)
Definition initialState : State :=
  mkState generate
          [mkCharacter 1 "homme" None; mkCharacter 2 "femme" None] []
          "" None None
          "16:9" "photorealistic" "natural morning light" "eye-level shot" "".

Definition setSceneDescription (d : string) (st : State) : State :=
  mkState (activeTab st) (characters st) (additionalElements st)
          d (sceneLocationImage st) (styleImage st)
          (aspectRatio st) (artisticStyle st) (lightingStyle st)
          (cameraPerspective st) (generatedPrompt st).

Definition setCharacters (l : list Character) (st : State) : State :=
  mkState (activeTab st) l (additionalElements st)
          (sceneDescription st) (sceneLocationImage st) (styleImage st)
          (aspectRatio st) (artisticStyle st) (lightingStyle st)
          (cameraPerspective st) (generatedPrompt st).

(** Derived state. *)
Definition hasSceneDescription (st : State) : bool :=
  bool_decide (trim (sceneDescription st) ≠ "").
Definition hasCharacterImage (st : State) : bool :=
  existsb (λ c, bool_decide (image c ≠ None)) (characters st).
Definition hasElementImage (st : State) : bool :=
  existsb (λ e, bool_decide (image e ≠ None)) (additionalElements st).

(** [l.filter(c => c.image !== null && c.name.trim() !== '')
      .map(c => `(${c.name.trim()})`).join(', ')] *)
Definition names (l : list Character) : string :=
  join ", "
    ((λ c, "(" +:+ trim (name c) +:+ ")") <$>
     filter (λ c, image c ≠ None ∧ trim (name c) ≠ "") l).

Definition characterNames (st : State) : string := names (characters st).
Definition elementNames (st : State) : string := names (additionalElements st).

Definition transparencyInstruction : string :=
  "CRITICAL INSTRUCTION: For any reference images with transparent padding, you must fill these transparent areas by extending the generated scene into them. The final image must be a complete, seamless scene from edge to edge. DO NOT render black bars, borders, letterboxing, or pillarboxing. The subjects from the reference images must be perfectly and naturally integrated into the new environment.".

Definition characterIntegration (st : State) : string :=
  if truthy (characterNames st)
  then "Integrate the characters " +:+ characterNames st +:+ " from their reference images."
  else "".
Definition elementIntegration (st : State) : string :=
  if truthy (elementNames st)
  then "Integrate the objects " +:+ elementNames st +:+ " from their reference images."
  else "".
Definition locationIntegration (st : State) : string :=
  match sceneLocationImage st with
  | Some _ => "Use the provided " +:+ dq +:+ "Scene Location" +:+ dq
              +:+ " image as the background environment."
  | None => ""
  end.

Definition integrationInstructions (st : State) : string :=
  join " " (List.filter truthy
              [characterIntegration st; elementIntegration st; locationIntegration st]).

(** [promptParts] after all the pushes, in order. *)
Definition promptParts (st : State) : list string :=
  ["Generate a cinematic image in a " +:+ artisticStyle st +:+ " style."]
  ++ (if truthy (sceneDescription st)
      then ["The scene is: " +:+ sceneDescription st +:+ "."] else [])
  ++ ["Use a " +:+ cameraPerspective st +:+ " with a " +:+ aspectRatio st +:+ " aspect ratio."]
  ++ ["The lighting is " +:+ lightingStyle st +:+ "."]
  ++ (if truthy (integrationInstructions st) then [integrationInstructions st] else [])
  ++ (match styleImage st with
      | Some _ => ["Use the " +:+ dq +:+ "Style Reference" +:+ dq
                   +:+ " image to influence the overall visual style and color palette."]
      | None => []
      end)
  ++ (if hasCharacterImage st || hasElementImage st then [transparencyInstruction] else []).

Definition newPrompt (st : State) : string :=
  join " " (List.filter truthy (promptParts st)).

(** The scene-description clause of a description. *)
Definition sceneClause (d : string) : string := "The scene is: " +:+ d +:+ ".".

(** The effect: nothing outside the Generate tab, else the prompt is
    rebuilt and stored. *)
Definition promptEffect (st : State) : State :=
  match activeTab st with
  | generate => setGeneratedPrompt (newPrompt st) st
  | edit => st
  end.

End Prompt.

(** ** JavaScript numbers *)

Module Number.

Inductive number :=
| NaN
| Infinity (negative : bool)
| Fin (q : Q).

Definition of_Z (z : Z) : number := Fin (inject_Z z).

Definition isZero (q : Q) : bool := Qeq_bool q 0.
Definition isNeg (q : Q) : bool :=
  match (q ?= 0)%Q with Lt => true | _ => false end.

(** [a / b] *)
Definition div (a b : number) : number :=
  match a, b with
  | NaN, _ | _, NaN => NaN
  | Infinity _, Infinity _ => NaN
  | Infinity s, Fin q => Infinity (xorb s (isNeg q))
  | Fin _, Infinity _ => Fin 0
  | Fin p, Fin q =>
      if isZero q then (if isZero p then NaN else Infinity (isNeg p))
      else Fin (Qred (p / q))
  end.

(** [a * b] *)
Definition mul (a b : number) : number :=
  match a, b with
  | NaN, _ | _, NaN => NaN
  | Infinity s, Infinity t => Infinity (xorb s t)
  | Infinity s, Fin q | Fin q, Infinity s =>
      if isZero q then NaN else Infinity (xorb s (isNeg q))
  | Fin p, Fin q => Fin (Qred (p * q))
  end.

(** [a - b] *)
Definition sub (a b : number) : number :=
  match a, b with
  | NaN, _ | _, NaN => NaN
  | Infinity s, Infinity t => if Bool.eqb s t then NaN else Infinity s
  | Infinity s, Fin _ => Infinity s
  | Fin _, Infinity t => Infinity (negb t)
  | Fin p, Fin q => Fin (Qred (p - q))
  end.

(** [a > b] *)
Definition gt (a b : number) : bool :=
  match a, b with
  | NaN, _ | _, NaN => false
  | Infinity s, Infinity t => negb s && t
  | Infinity s, Fin _ => negb s
  | Fin _, Infinity t => t
  | Fin p, Fin q => match (p ?= q)%Q with Gt => true | _ => false end
  end.

(** [a === b] on numbers *)
Definition strictEq (a b : number) : bool :=
  match a, b with
  | Fin p, Fin q => Qeq_bool p q
  | Infinity s, Infinity t => Bool.eqb s t
  | _, _ => false
  end.

(** [Math.round]: the nearest integer, a tie going up. *)
Definition Math_round (a : number) : number :=
  match a with
  | Fin q => of_Z (Qfloor (q + (1 # 2))%Q)
  | _ => a
  end.

(** *** [parseFloat] *)

Definition digit (c : ascii) : option Z :=
  let n := Z.of_N (N_of_ascii c) in
  if (48 <=? n) && (n <=? 57) then Some (n - 48) else None.

(** The longest prefix of decimal digits: its value (read after [acc]),
    its length, and what follows it. *)
Fixpoint digits (acc : Z) (s : string) : Z * nat * string :=
  match s with
  | String c r =>
      match digit c with
      | Some d => let '(v, n, rest) := digits (10 * acc + d) r in (v, S n, rest)
      | None => (acc, O, s)
      end
  | EmptyString => (acc, O, s)
  end.

(** [ExponentPart], when one follows: its value and what follows it. *)
Definition exponentPart (s : string) : Z * string :=
  match s with
  | String c r =>
      if Ascii.eqb c "e" || Ascii.eqb c "E" then
        let '(neg, r') :=
          match r with
          | String "-" t => (true, t)
          | String "+" t => (false, t)
          | _ => (false, r)
          end in
        match digits 0 r' with
        | (_, O, _) => (0, s)
        | (e, S _, rest) => (if neg then - e else e, rest)
        end
      else (0, s)
  | EmptyString => (0, s)
  end.

(** [m * 10^e] *)
Definition scale10 (m e : Z) : Q :=
  if 0 <=? e then inject_Z (m * 10 ^ e)
  else Qred (Qmake m (Z.to_pos (10 ^ (- e)))).

(** [parseFloat]: skip leading white space, then read the longest prefix
    that is a [StrDecimalLiteral]; [NaN] when there is none. *)
Definition parseFloat (input : string) : number :=
  let s := trimStart input in
  let '(neg, s) :=
    match s with
    | String "-" t => (true, t)
    | String "+" t => (false, t)
    | _ => (false, s)
    end in
  if startsWith s "Infinity" then Infinity neg else
  let '(i, ni, s1) := digits 0 s in
  let '(m, nf, s2) :=
    match s1 with
    | String "." t => digits i t
    | _ => (i, O, s1)
    end in
  match ni, nf with
  | O, O => NaN
  | _, _ =>
      let '(e, _) := exponentPart s2 in
      let v := scale10 m (e - Z.of_nat nf) in
      Fin (if neg then Qred (- v) else v)
  end.

End Number.
Import Number.

(** ** Image geometry ([components/ImageEditor.tsx],
    [components/ImageUploader.tsx]) *)

Module Geometry.

(** The body of the [try] block of [parseAspectRatio]; [None] would be an
    exception. [parseFloat] and the arithmetic never raise one. *)
Definition parseAspectRatio_try (part0 part1 : string) : option number :=
  let num := parseFloat part0 in
  let den := parseFloat part1 in
  if strictEq den (of_Z 0) then Some (div (of_Z 16) (of_Z 9))
  else Some (div num den).

Definition parseAspectRatio (ratioStr : string) : number :=
  match split ":" ratioStr with
  | [part0; part1] =>
      match parseAspectRatio_try part0 part1 with
      | Some r => r
      | None => div (of_Z 16) (of_Z 9)
      end
  | _ => div (of_Z 16) (of_Z 9)
  end.

(** *** The canvas

    A canvas is its two dimensions and the [drawImage] calls made since
    its bitmap was last cleared.  Assigning [width] or [height] clears the
    bitmap to transparent black.  A dimension is kept as the number
    assigned: the conversion of the DOM to an unsigned long, which leaves
    the integers from 0 to 2^31 - 1 as they are, is not represented. *)
Record DrawImage := mkDrawImage {
  dx : number;
  dy : number;
  dWidth : number;
  dHeight : number
}.

Record Canvas := mkCanvas {
  width : number;
  height : number;
  drawn : list DrawImage
}.

Definition setWidth (v : number) (c : Canvas) : Canvas :=
  mkCanvas v (height c) [].
Definition setHeight (v : number) (c : Canvas) : Canvas :=
  mkCanvas (width c) v [].
Definition drawImage (x y w h : number) (c : Canvas) : Canvas :=
  mkCanvas (width c) (height c) (drawn c ++ [mkDrawImage x y w h]).

(** [document.createElement('canvas')]: 300 by 150, nothing drawn. *)
Definition createCanvas : Canvas := mkCanvas (of_Z 300) (of_Z 150) [].

Definition Qltb (p q : Q) : bool :=
  match (p ?= q)%Q with Lt => true | _ => false end.

(** The destination rectangle of the call meets the pixel whose corner is
    [(i, j)].  A call with a non-finite argument draws nothing. *)
Definition covers (i j : Z) (d : DrawImage) : bool :=
  match dx d, dy d, dWidth d, dHeight d with
  | Fin x, Fin y, Fin w, Fin h =>
      Qltb x (inject_Z (i + 1)) && Qltb (inject_Z i) (x + w)
      && Qltb y (inject_Z (j + 1)) && Qltb (inject_Z j) (y + h)
  | _, _, _, _ => false
  end.

(** The pixel is as the last clearing left it: transparent. *)
Definition transparentAt (c : Canvas) (i j : Z) : bool :=
  negb (existsb (covers i j) (drawn c)).

(** *** [parseDataUrl] *)

(** A line terminator starts here: LF, CR, U+2028 or U+2029. *)
Definition lineTerminatorAt (s : string) : bool :=
  match s with
  | String "010" _ | String "013" _ => true
  | String "226" (String "128" (String "168" _))
  | String "226" (String "128" (String "169" _)) => true
  | _ => false
  end.

(** [(.*?);] from here: the shortest run of characters other than line
    terminators that a semicolon follows. *)
Fixpoint lazyToSemicolon (s : string) : option string :=
  match s with
  | String ";" _ => Some EmptyString
  | String c r =>
      if lineTerminatorAt s then None
      else String c <$> lazyToSemicolon r
  | EmptyString => None
  end.

(** Group 1 of the first match of [/:(.*?);/]. *)
Fixpoint matchMime (s : string) : option string :=
  match s with
  | String c r =>
      if Ascii.eqb c ":" then
        match lazyToSemicolon r with
        | Some m => Some m
        | None => matchMime r
        end
      else matchMime r
  | EmptyString => None
  end.

(** [parseDataUrl]; [None] is the error "Invalid data URL". *)
Definition parseDataUrl (dataUrl : string) : option ImageFile :=
  let parts := split "," dataUrl in
  match matchMime (hd EmptyString parts) with
  | None => None
  | Some mimeType => Some (mkImageFile (parts !! 1%nat) mimeType)
  end.

(** *** [handleApply] of the image editor (pad to an aspect ratio) *)

(** What [img.onload] leaves: the canvas, the two offsets, and the
    arguments of [canvas.toDataURL]. *)
Record Applied := mkApplied {
  canvas : Canvas;
  xOffset : number;
  yOffset : number;
  outType : string;
  outQuality : number
}.

Definition handleApply_onload (naturalWidth naturalHeight : Z)
    (aspectRatio : string) (canvas0 : Canvas) : Applied :=
  let originalWidth := of_Z naturalWidth in
  let originalHeight := of_Z naturalHeight in
  let originalAspectRatio := div originalWidth originalHeight in
  let targetAspectRatio := parseAspectRatio aspectRatio in
  let '(newWidth, newHeight) :=
    if gt originalAspectRatio targetAspectRatio
    then (originalWidth, div originalWidth targetAspectRatio)
    else (mul originalHeight targetAspectRatio, originalHeight) in
  let canvas := setWidth (Math_round newWidth) canvas0 in
  let canvas := setHeight (Math_round newHeight) canvas in
  let xOffset := div (sub (width canvas) originalWidth) (of_Z 2) in
  let yOffset := div (sub (height canvas) originalHeight) (of_Z 2) in
  let canvas := drawImage xOffset yOffset originalWidth originalHeight canvas in
  mkApplied canvas xOffset yOffset "image/png" (of_Z 1).

(** [canvas.toDataURL(type, quality)]: the encoder of the browser, taken
    as given. *)
Definition Encoder : Type := Canvas → string → number → string.

(** [handleApply]: nothing without an image or a canvas; [decoded] is the
    outcome of loading the image ([None]: [onerror]), [hasContext] whether
    [getContext('2d')] gave a context.  The result is what [img.onload]
    leaves and the image [onApply] is called with; [onApply] is not called
    when [parseDataUrl] raises, which is caught. *)
Definition handleApply (toDataURL : Encoder) (image : option ImageFile)
    (canvasRef : option Canvas) (decoded : option (Z * Z)) (hasContext : bool)
    (aspectRatio : string) : option (Applied * option ImageFile) :=
  match image, canvasRef with
  | Some _, Some canvas0 =>
      match decoded with
      | Some (naturalWidth, naturalHeight) =>
          if hasContext then
            let a := handleApply_onload naturalWidth naturalHeight aspectRatio canvas0 in
            let dataUrl := toDataURL (canvas a) (outType a) (outQuality a) in
            Some (a, parseDataUrl dataUrl)
          else None
      | None => None
      end
  | _, _ => None
  end.

(** *** [resizeImage] (resize to a longest side) *)

Record Resized := mkResized {
  surface : Canvas;
  toType : string;
  toQuality : number
}.

Definition resizeImage_onload (imageUrl : string) (targetLongestSide : number)
    (naturalWidth naturalHeight : Z) : Resized :=
  let width := of_Z naturalWidth in
  let height := of_Z naturalHeight in
  let aspectRatio := div width height in
  let '(newWidth, newHeight) :=
    if gt width height
    then (targetLongestSide, div targetLongestSide aspectRatio)
    else (mul targetLongestSide aspectRatio, targetLongestSide) in
  let canvas := setWidth (Math_round newWidth) createCanvas in
  let canvas := setHeight (Math_round newHeight) canvas in
  let canvas := drawImage (of_Z 0) (of_Z 0) newWidth newHeight canvas in
  let mimeType :=
    if startsWith imageUrl "data:image/jpeg" then "image/jpeg" else "image/png" in
  mkResized canvas mimeType (of_Z 1).

(** The promise of [resizeImage]: [inl] the data URL that resolves it,
    [inr] the message of the error that rejects it. *)
Definition resizeImage (toDataURL : Encoder) (imageUrl : string)
    (targetLongestSide : number) (decoded : option (Z * Z)) (hasContext : bool)
    : string + string :=
  match decoded with
  | Some (naturalWidth, naturalHeight) =>
      if hasContext then
        let r := resizeImage_onload imageUrl targetLongestSide naturalWidth naturalHeight in
        inl (toDataURL (surface r) (toType r) (toQuality r))
      else inr "Could not get canvas context"
  | None => inr "Failed to load image for resizing."
  end.

End Geometry.


(** ** JavaScript values and JSON *)

Module JSON.

(** The values that cross the JSON boundary.  A number keeps the text it
    was read from; nothing here computes with one. *)
Inductive value :=
| Undefined
| Null
| Bool (b : bool)
| Num (literal : string)
| Str (s : string)
| Arr (items : list value)
| Obj (members : list (string * value)).

(** JSON white space: space, TAB, LF, CR. *)
Fixpoint skipWs (s : string) : string :=
  match s with
  | String (" " | "009" | "010" | "013")%char r => skipWs r
  | _ => s
  end.

Fixpoint takeDigits (s : string) : string * string :=
  match s with
  | String c r =>
      match digit c with
      | Some _ => let '(d, rest) := takeDigits r in (String c d, rest)
      | None => (EmptyString, s)
      end
  | EmptyString => (EmptyString, s)
  end.

Definition hexDigit (c : ascii) : option N :=
  let n := N_of_ascii c in
  (if (48 <=? n) && (n <=? 57) then Some (n - 48)
   else if (97 <=? n) && (n <=? 102) then Some (n - 87)
   else if (65 <=? n) && (n <=? 70) then Some (n - 55)
   else None)%N.

(** The UTF-8 bytes of one 16-bit code unit (a surrogate is encoded on
    its own, as three bytes). *)
Definition utf8 (n : N) : string :=
  (if n <? 128 then String (ascii_of_N n) EmptyString
   else if n <? 2048 then
     String (ascii_of_N (192 + n / 64))
       (String (ascii_of_N (128 + n mod 64)) EmptyString)
   else
     String (ascii_of_N (224 + n / 4096))
       (String (ascii_of_N (128 + (n / 64) mod 64))
          (String (ascii_of_N (128 + n mod 64)) EmptyString)))%N.

(** The characters of a string literal after its opening quote, up to the
    closing quote: the decoded text and what follows the literal. *)
Fixpoint parseStringBody (s : string) : option (string * string) :=
  match s with
  | EmptyString => None
  | String "034" r => Some (EmptyString, r)
  | String "\" (String e r) =>
      match e with
      | "u"%char =>
          match r with
          | String h1 (String h2 (String h3 (String h4 r'))) =>
              match hexDigit h1, hexDigit h2, hexDigit h3, hexDigit h4 with
              | Some a, Some b, Some c, Some d =>
                  match parseStringBody r' with
                  | Some (t, rest) =>
                      Some (utf8 (((a * 16 + b) * 16 + c) * 16 + d)%N +:+ t, rest)
                  | None => None
                  end
              | _, _, _, _ => None
              end
          | _ => None
          end
      | _ =>
          match (match e with
                 | "034" | "\" | "/" => Some e
                 | "b" => Some "008" | "f" => Some "012" | "n" => Some "010"
                 | "r" => Some "013" | "t" => Some "009"
                 | _ => None
                 end)%char with
          | Some c =>
              match parseStringBody r with
              | Some (t, rest) => Some (String c t, rest)
              | None => None
              end
          | None => None
          end
      end
  | String "\" EmptyString => None
  | String c r =>
      if (N_of_ascii c <? 32)%N then None
      else match parseStringBody r with
           | Some (t, rest) => Some (String c t, rest)
           | None => None
           end
  end.

(** A number literal: its text and what follows it. *)
Definition parseNumber (s : string) : option (string * string) :=
  let '(sign, s0) :=
    match s with
    | String "-" t => ("-", t)
    | _ => (EmptyString, s)
    end in
  let '(int, s1) := takeDigits s0 in
  match int with
  | EmptyString => None
  | String "0" (String _ _) => None
  | _ =>
      let frac :=
        match s1 with
        | String "." t =>
            let '(f, s2) := takeDigits t in
            match f with
            | EmptyString => None
            | _ => Some ("." +:+ f, s2)
            end
        | _ => Some (EmptyString, s1)
        end in
      match frac with
      | None => None
      | Some (frac, s2) =>
          match s2 with
          | String (("e" | "E")%char as c) t =>
              let '(es, t') :=
                match t with
                | String "-" u => ("-", u)
                | String "+" u => ("+", u)
                | _ => (EmptyString, t)
                end in
              let '(ds, s3) := takeDigits t' in
              match ds with
              | EmptyString => None
              | _ => Some (sign +:+ int +:+ frac +:+ String c es +:+ ds, s3)
              end
          | _ => Some (sign +:+ int +:+ frac, s2)
          end
      end
  end.

(** [s] without the prefix [p], when it starts with it. *)
Fixpoint stripPrefix (p s : string) : option string :=
  match p, s with
  | EmptyString, _ => Some s
  | String a p', String b s' => if Ascii.eqb a b then stripPrefix p' s' else None
  | String _ _, EmptyString => None
  end.

(** Defining member [k] of an object being built: a later definition of
    the same key, found in [ms], gives the value. *)
Fixpoint lookupLast (k : string) (ms : list (string * value)) : option value :=
  match ms with
  | [] => None
  | (k', x) :: r =>
      match lookupLast k r with
      | Some y => Some y
      | None => if String.eqb k' k then Some x else None
      end
  end.

Definition define (k : string) (v : value) (ms : list (string * value))
    : list (string * value) :=
  (k, default v (lookupLast k ms)) :: filter (λ m, fst m ≠ k) ms.

(** The recursive-descent reader.  [fuel] bounds the depth of the calls;
    of two nested calls at least one reads a character, so twice the
    length of the text is enough. *)
Fixpoint parseValue (fuel : nat) (s : string) : option (value * string) :=
  match fuel with
  | O => None
  | S fuel =>
      match skipWs s with
      | String "[" r =>
          match skipWs r with
          | String "]" r' => Some (Arr [], r')
          | _ =>
              match parseElements fuel r with
              | Some (vs, r') => Some (Arr vs, r')
              | None => None
              end
          end
      | String "{" r =>
          match skipWs r with
          | String "}" r' => Some (Obj [], r')
          | _ =>
              match parseMembers fuel r with
              | Some (ms, r') => Some (Obj ms, r')
              | None => None
              end
          end
      | String "034" r =>
          match parseStringBody r with
          | Some (t, r') => Some (Str t, r')
          | None => None
          end
      | String _ _ as s' =>
          match stripPrefix "null" s', stripPrefix "true" s', stripPrefix "false" s' with
          | Some r, _, _ => Some (Null, r)
          | _, Some r, _ => Some (Bool true, r)
          | _, _, Some r => Some (Bool false, r)
          | None, None, None =>
              match parseNumber s' with
              | Some (l, r) => Some (Num l, r)
              | None => None
              end
          end
      | EmptyString => None
      end
  end
with parseElements (fuel : nat) (s : string) : option (list value * string) :=
  match fuel with
  | O => None
  | S fuel =>
      match parseValue fuel s with
      | Some (v, r) =>
          match skipWs r with
          | String "," r' =>
              match parseElements fuel r' with
              | Some (vs, r'') => Some (v :: vs, r'')
              | None => None
              end
          | String "]" r' => Some ([v], r')
          | _ => None
          end
      | None => None
      end
  end
with parseMembers (fuel : nat) (s : string)
    : option (list (string * value) * string) :=
  match fuel with
  | O => None
  | S fuel =>
      match skipWs s with
      | String "034" r =>
          match parseStringBody r with
          | Some (k, r1) =>
              match skipWs r1 with
              | String ":" r2 =>
                  match parseValue fuel r2 with
                  | Some (v, r3) =>
                      match skipWs r3 with
                      | String "," r4 =>
                          match parseMembers fuel r4 with
                          | Some (ms, r5) => Some (define k v ms, r5)
                          | None => None
                          end
                      | String "}" r4 => Some ([(k, v)], r4)
                      | _ => None
                      end
                  | None => None
                  end
              | _ => None
              end
          | None => None
          end
      | _ => None
      end
  end.

(** [JSON.parse]; [None] is the [SyntaxError]. *)
Definition JSON_parse (text : string) : option value :=
  match parseValue (2 * String.length text + 2) text with
  | Some (v, r) =>
      match skipWs r with
      | EmptyString => Some v
      | _ => None
      end
  | None => None
  end.

Definition hexChar (n : N) : ascii :=
  default "0"%char (String.get (N.to_nat n) "0123456789abcdef").

(** One character as [JSON.stringify] writes it inside a string. *)
Definition escape (c : ascii) : string :=
  if Ascii.eqb c "034" then "\" +:+ dq
  else if Ascii.eqb c "\" then "\\"
  else if Ascii.eqb c "008" then "\b"
  else if Ascii.eqb c "012" then "\f"
  else if Ascii.eqb c "010" then "\n"
  else if Ascii.eqb c "013" then "\r"
  else if Ascii.eqb c "009" then "\t"
  else if (N_of_ascii c <? 32)%N then
    "\u00" +:+ String (hexChar (N_of_ascii c / 16))
                 (String (hexChar (N_of_ascii c mod 16)) EmptyString)
  else String c EmptyString.

Fixpoint quoteBody (s : string) : string :=
  match s with
  | EmptyString => EmptyString
  | String c r => escape c +:+ quoteBody r
  end.

Definition quote (s : string) : string := dq +:+ quoteBody s +:+ dq.

(** [JSON.stringify]; [None] is the result [undefined]. *)
Fixpoint JSON_stringify (v : value) : option string :=
  match v with
  | Undefined => None
  | Null => Some "null"
  | Bool b => Some (if b then "true" else "false")
  | Num l => Some l
  | Str s => Some (quote s)
  | Arr items =>
      Some ("[" +:+ join "," ((λ x, default "null" (JSON_stringify x)) <$> items) +:+ "]")
  | Obj members =>
      Some ("{" +:+ join ","
              (omap (λ m, match m with
                          | (k, x) => (λ t, quote k +:+ ":" +:+ t) <$> JSON_stringify x
                          end) members)
            +:+ "}")
  end.


End JSON.
Import JSON.


(** ** The generation history ([App.tsx]) *)

Module History.

Definition MAX_HISTORY_ITEMS : nat := 10.
Definition HISTORY_IMAGE_SIZE : Z := 512.

(** The key of the history in [localStorage]. *)
Definition generationHistory : string := "generationHistory".

(** [localStorage]: a map from keys to strings.  [getItem] is the lookup,
    [setItem] the insertion, [removeItem] the deletion. *)
Abbreviation localStorage := (gmap string string).

(** A history entry as the handler builds it. *)
Record HistoryItem := mkHistoryItem {
  id : string;
  image : ImageFile;
  prompt : string;
  createdAt : string
}.

(** The object an [ImageFile] is at run time. *)
Definition ImageFile_value (f : ImageFile) : value :=
  Obj [("base64", match base64 f with Some b => Str b | None => Undefined end);
       ("mimeType", Str (mimeType f))].

(** The object a [HistoryItem] is at run time: what the history array
    holds, and what [JSON.parse] gives back for it. *)
Definition HistoryItem_value (h : HistoryItem) : value :=
  Obj [("id", Str (id h)); ("image", ImageFile_value (image h));
       ("prompt", Str (prompt h)); ("createdAt", Str (createdAt h))].

(** *** Load history from local storage on mount

    The storage after the effect and, when it called [setHistory], the
    array it passed. *)
Definition loadHistoryEffect (ls : localStorage)
    : localStorage * option (list value) :=
  match ls !! generationHistory with
  | Some storedHistory =>
      if truthy storedHistory then
        match JSON_parse storedHistory with
        | Some parsedHistory =>
            match parsedHistory with
            | Arr items => (ls, Some (take MAX_HISTORY_ITEMS items))
            | _ => (ls, None)
            end
        | None => (delete generationHistory ls, None)
        end
      else (ls, None)
  | None => (ls, None)
  end.

(** *** Save history to local storage whenever it changes

    An exception of [setItem] (a full storage) is caught and logged; the
    storage here has no bound and [setItem] always succeeds. *)
Definition saveHistoryEffect (history : list value) (ls : localStorage)
    : localStorage :=
  if bool_decide (0 < length history)%nat
  then <[generationHistory := default "undefined" (JSON_stringify (Arr history))]> ls
  else delete generationHistory ls.

(** *** Mounting [App]

    The first render has the empty history.  After it the two effects run
    in the order they are declared; when the load effect has set a new
    history the component renders again and the save effect runs with
    it. *)
Definition mount (ls : localStorage) : localStorage * list value :=
  let history := [] in
  let '(ls, update) := loadHistoryEffect ls in
  let ls := saveHistoryEffect history ls in
  match update with
  | Some history' => (saveHistoryEffect history' ls, history')
  | None => (ls, history)
  end.

(** *** [handleAddToHistory] *)

Inductive Kind := gen | edit.

Definition Kind_string (type : Kind) : string :=
  match type with
  | gen => "gen"
  | edit => "edit"
  end.

(** The decimal text of an integer, as a template literal prints it. *)
Definition decimal (z : Z) : string :=
  DecimalString.NilZero.string_of_int (Z.to_int z).

(** [decoded] and [hasContext] are what [resizeImage] meets when it
    loads [image]; [now] is [Date.now()] and [nowISO] is
    [new Date().toISOString()].  The result is the history after the update
    given to [setHistory]; a rejected resize or an exception of
    [parseDataUrl] is caught and leaves the history as it is. *)
Definition handleAddToHistory (toDataURL : Geometry.Encoder)
    (decoded : option (Z * Z)) (hasContext : bool)
    (image prompt : string) (type : Kind) (now : Z) (nowISO : string)
    (prev : list value) : list value :=
  match Geometry.resizeImage toDataURL image (of_Z HISTORY_IMAGE_SIZE) decoded hasContext with
  | inr _ => prev
  | inl resizedImage =>
      match Geometry.parseDataUrl resizedImage with
      | None => prev
      | Some parsed =>
          let newHistoryItem :=
            mkHistoryItem (Kind_string type +:+ "-" +:+ decimal now)
                          parsed prompt nowISO in
          take MAX_HISTORY_ITEMS (HistoryItem_value newHistoryItem :: prev)
      end
  end.

(** *** [handleDeleteFromHistory] *)

(** [item.id]; [None] is the [TypeError] of reading a property of [null]
    or [undefined]. *)
Definition item_id (item : value) : option value :=
  match item with
  | Undefined | Null => None
  | Obj members => Some (default Undefined (lookupLast "id" members))
  | _ => Some Undefined
  end.

(** [v !== id] for a string [id]. *)
Definition strictNeString (v : value) (id : string) : bool :=
  match v with
  | Str s => negb (String.eqb s id)
  | _ => true
  end.

(** [prev.filter(item => item.id !== id)]; [None] when the callback
    raises. *)
Fixpoint handleDeleteFromHistory (id : string) (prev : list value)
    : option (list value) :=
  match prev with
  | [] => Some []
  | item :: rest =>
      match item_id item with
      | None => None
      | Some v =>
          match handleDeleteFromHistory id rest with
          | None => None
          | Some rest' => Some (if strictNeString v id then item :: rest' else rest')
          end
      end
  end.

(** *** [handleClearHistory]; [confirmed] is the answer of
    [window.confirm]. *)
Definition handleClearHistory (confirmed : bool) (prev : list value)
    : list value :=
  if confirmed then [] else prev.

End History.

(** ** Images as data URLs, and the upload of a file
    ([components/ImageUploader.tsx], [components/ImageEditor.tsx]) *)

Module DataUrl.

(** [`data:${image.mimeType};base64,${image.base64}`], the source of the
    previews and of the image the editor loads; a payload that is
    [undefined] is written as that word. *)
Definition imageSrc (image : ImageFile) : string :=
  "data:" +:+ mimeType image +:+ ";base64," +:+ default "undefined" (base64 image).

(** The character occurs in the string. *)
Fixpoint occurs (c : ascii) (s : string) : bool :=
  match s with
  | EmptyString => false
  | String a r => Ascii.eqb a c || occurs c r
  end.

(** [handleFileChange].  [file] is [None] when no file was chosen;
    otherwise it is what the reader ends with, a data URL or something that
    is no string.  The result is the argument [onImageUpload] is called
    with, or [None] when it is not called. *)
Definition handleFileChange (file : option (option string))
    : option (option ImageFile) :=
  match file with
  | Some (Some result) =>
      match Geometry.parseDataUrl result with
      | Some parsedImage => Some (Some parsedImage)
      | None => Some None
      end
  | Some None => None
  | None => Some None
  end.

(** [handleRemove]: [onImageUpload(null)]. *)
Definition handleRemove : option ImageFile := None.

End DataUrl.

(** ** The lists of characters and objects ([App.tsx],
    [components/EditableElementList.tsx]) *)

Module Elements.

(** [onAdd]; [now] is [Date.now()] and [placeholder] the translated
    word. *)
Definition onAdd (now : Z) (placeholder : string) (prev : list Character)
    : list Character :=
  prev ++ [mkCharacter now
             (placeholder +:+ " " +:+ History.decimal (Z.of_nat (length prev + 1)))
             None].

(** [onRemove] *)
Definition onRemove (ident : Z) (prev : list Character) : list Character :=
  filter (λ c, id c ≠ ident) prev.

(** [onNameChange] *)
Definition onNameChange (ident : Z) (newName : string) (prev : list Character)
    : list Character :=
  (λ c, if decide (id c = ident) then mkCharacter (id c) newName (image c) else c)
    <$> prev.

(** [onImageUpload] *)
Definition onImageUpload (ident : Z) (newImage : option ImageFile)
    (prev : list Character) : list Character :=
  (λ c, if decide (id c = ident) then mkCharacter (id c) (name c) newImage else c)
    <$> prev.

(** [ToIntegerOrInfinity] followed by the clamping [splice] applies to its
    start argument on an array of [len] elements: a negative index counts
    from the end. *)
Definition spliceStart (len : nat) (start : number) : nat :=
  match start with
  | NaN => O
  | Infinity negative => if negative then O else len
  | Fin q =>
      let z := Z.quot (Qnum q) (Z.pos (Qden q)) in
      if z <? 0 then Z.to_nat (Z.max (Z.of_nat len + z) 0)
      else Nat.min (Z.to_nat z) len
  end.

(** [handleReorder] on the list [items], the array it passes to [setList]: the element at
    [startIndex] is taken out and inserted at [endIndex].  An element of the
    result that is [None] is [undefined]: what is inserted when nothing was
    taken out. *)
Definition handleReorder {T : Type} (items : list T) (startIndex endIndex : number)
    : list (option T) :=
  let s := spliceStart (length items) startIndex in
  let removed := items !! s in
  let result := delete s items in
  let e := spliceStart (length result) endIndex in
  (Some <$> take e result) ++ [removed] ++ (Some <$> drop e result).

(** [parseInt(text, 10)] *)
Definition parseInt (text : string) : number :=
  let s := trimStart text in
  let '(neg, s) :=
    match s with
    | String "-" t => (true, t)
    | String "+" t => (false, t)
    | _ => (false, s)
    end in
  match digits 0 s with
  | (_, O, _) => NaN
  | (v, S _, _) => of_Z (if neg then - v else v)
  end.

(** The drag state of a list. *)
Record DragState := mkDragState {
  draggedItemId : option Z;
  dragOverItemId : option Z
}.

(** [handleDragStart]: the text put in the data transfer, and the state. *)
Definition handleDragStart (ident : Z) (index : nat) (st : DragState)
    : string * DragState :=
  (History.decimal (Z.of_nat index), mkDragState (Some ident) (dragOverItemId st)).

(** [handleDragEnter] *)
Definition handleDragEnter (ident : Z) (st : DragState) : DragState :=
  if decide (draggedItemId st = Some ident) then st
  else mkDragState (draggedItemId st) (Some ident).

(** [handleDragLeave] *)
Definition handleDragLeave (st : DragState) : DragState :=
  mkDragState (draggedItemId st) None.

(** [handleDragEnd] *)
Definition handleDragEnd : DragState := mkDragState None None.

(** [handleDrop] on a list that can be reordered.  [data] is the text of
    the data transfer.  The result is the array [onReorder] gives to
    [setList], or [None] when [onReorder] is not called, and the state. *)
Definition handleDrop {T : Type} (items : list T) (data : string) (dropIndex : nat)
    : option (list (option T)) * DragState :=
  let dragIndex := parseInt data in
  (if strictEq dragIndex (of_Z (Z.of_nat dropIndex)) then None
   else Some (handleReorder items dragIndex (of_Z (Z.of_nat dropIndex))),
   mkDragState None None).

(** [commitName] of an item: the call of [onNameChange] it makes, if
    any.  [s || ''] on a string is the string itself when it is not empty
    and [''] otherwise. *)
Definition orEmpty (s : string) : string := if truthy s then s else "".

Definition commitName (elem : Character) (localName : string) : option (Z * string) :=
  if decide (orEmpty (name elem) ≠ orEmpty localName)
  then Some (id elem, localName) else None.

(** The events of a drag over the items, after its start. *)
Inductive DragEvent := DragEnter (ident : Z) | DragLeave.

Definition handleDragEvent (st : DragState) (e : DragEvent) : DragState :=
  match e with
  | DragEnter ident => handleDragEnter ident st
  | DragLeave => handleDragLeave st
  end.

End Elements.

(** ** The options of the selects ([constants.ts]) *)

Module Constants.

Record SelectOption := mkSelectOption {
  value : string;
  label : string
}.

(** [t] is the translation function. *)
Definition getAspectRatioOptions (t : string → string) : list SelectOption :=
  [ mkSelectOption "16:9" (t "constants.aspectRatios.widescreen");
    mkSelectOption "9:16" (t "constants.aspectRatios.vertical");
    mkSelectOption "1:1" (t "constants.aspectRatios.square");
    mkSelectOption "4:3" (t "constants.aspectRatios.classic");
    mkSelectOption "2.39:1" (t "constants.aspectRatios.cinemascope") ].

Definition getNumberOfImagesOptions (t : string → string) : list SelectOption :=
  [ mkSelectOption "1" (t "constants.imageCount.one");
    mkSelectOption "2" (t "constants.imageCount.two");
    mkSelectOption "3" (t "constants.imageCount.three");
    mkSelectOption "4" (t "constants.imageCount.four") ].

End Constants.

(** ** The Generate tab: the request of [handleGenerateClick]
    ([App.tsx]) *)

Module Generate.
Import Prompt.

Definition hasLocationImage (st : State) : bool :=
  bool_decide (sceneLocationImage st ≠ None).

Definition isGenerationDisabled (st : State) (genLoading : bool) : bool :=
  negb (hasSceneDescription st || hasCharacterImage st || hasElementImage st
        || hasLocationImage st)
  || genLoading.

(** The argument of [generateStoryImage]; [baseImage] is [None] when the
    property is absent. *)
Record Request := mkRequest {
  prompt : string;
  characterImages : list ImageFile;
  styleImage : option ImageFile;
  baseImage : option ImageFile
}.

(** [l.map(c => c.image).filter(img => img !== null)] *)
Definition images (l : list Character) : list ImageFile := omap image l.

(** The argument every call of [generateStoryImage] gets. *)
Definition generationRequest (st : State) : Request :=
  let characterImages := images (characters st) in
  let elementImages := images (additionalElements st) in
  let locationImage :=
    match sceneLocationImage st with Some i => [i] | None => [] end in
  mkRequest (generatedPrompt st)
            (locationImage ++ characterImages ++ elementImages)
            (Prompt.styleImage st) None.

(** [handleGenerateClick] up to the calls of the service: [None] when it
    returns at once, else the requests made, [numberOfImages] of them. *)
Definition handleGenerateClick (st : State) (genLoading : bool)
    (numberOfImages : nat) : option (list Request) :=
  if isGenerationDisabled st genLoading then None
  else Some (replicate numberOfImages (generationRequest st)).

End Generate.

(** ** The Edit tab: [handleApplyStandaloneEdit] ([App.tsx]) *)

Module EditTab.
Import Generate.

Record State := mkState {
  editBaseImage : option ImageFile;
  editAddChars : list Character;
  editAddObjs : list Character;
  standaloneEditPrompt : string;
  editLoading : bool
}.


(** [l.filter(c => c.image).map(c => `(${c.name})`).join(', ')] *)
Definition names (l : list Character) : string :=
  join ", " ((λ c, "(" +:+ name c +:+ ")") <$> filter (λ c, is_Some (image c)) l).



End EditTab.

(** ** The display of the results and its downloads
    ([components/GeneratedImageDisplay.tsx]) *)

Module Display.

(** [downloadImage]: the [href] and the [download] attribute of the link
    it clicks. *)
Definition downloadImage (imageUrl fileName : string) : string * string :=
  (imageUrl, fileName +:+ ".png").

Inductive Resolution := r2k | r4k.

Definition Resolution_string (resolution : Resolution) : string :=
  match resolution with
  | r2k => "2k"
  | r4k => "4k"
  end.

Definition targetSize (resolution : Resolution) : Z :=
  match resolution with
  | r2k => 2560
  | r4k => 3840
  end.

(** [handleResizeAndDownload]: the link clicked, or [None] when the resize
    is rejected and the alert is shown.  [now] is [Date.now()]; [decoded]
    and [hasContext] are what [resizeImage] meets. *)
Definition handleResizeAndDownload (toDataURL : Geometry.Encoder)
    (image : string) (resolution : Resolution) (now : Z)
    (decoded : option (Z * Z)) (hasContext : bool) : option (string * string) :=
  let fileName :=
    "generated-image-" +:+ Resolution_string resolution +:+ "-" +:+ History.decimal now in
  match Geometry.resizeImage toDataURL image (of_Z (targetSize resolution)) decoded hasContext with
  | inl resizedImageUrl => Some (downloadImage resizedImageUrl fileName)
  | inr _ => None
  end.

(** What [GeneratedImageDisplay] renders. *)
Inductive View :=
| LoadingSpinner
| ErrorBox (message : string)
| ImageGrid (gridClass : string) (shown : list string)
| EmptyState.

Definition gridClass (numImages : nat) : string :=
  let gridClass := "grid-cols-1 grid-rows-1" in
  let gridClass := if (1 <? numImages)%nat then "grid-cols-2 grid-rows-1" else gridClass in
  if (2 <? numImages)%nat then "grid-cols-2 grid-rows-2" else gridClass.

(** The four conditional blocks, in order; [error] is [None] for
    [null]. *)
Definition GeneratedImageDisplay (shown : list string) (isLoading : bool)
    (error : option string) : list View :=
  let hasError := match error with Some e => truthy e | None => false end in
  (if isLoading then [LoadingSpinner] else [])
  ++ (if negb isLoading && hasError then [ErrorBox (default "" error)] else [])
  ++ (if negb isLoading && negb hasError && (0 <? length shown)%nat
      then [ImageGrid (gridClass (length shown)) shown] else [])
  ++ (if negb isLoading && negb hasError && (length shown =? 0)%nat
      then [EmptyState] else []).

End Display.

(** ** The history over a session ([App.tsx]) *)

Module Session.
Import History.

Global Instance Kind_eq_dec : EqDecision Kind.
Proof. solve_decision. Defined.

(** [handleViewHistoryItem]: the URL given to [setViewingImage]. *)
Definition handleViewHistoryItem (item : HistoryItem) : string :=
  DataUrl.imageSrc (image item).

(** What happens to the history: an image arrives from the service and
    [handleAddToHistory] runs to its end, an entry is deleted, the history
    is cleared. *)
Inductive Event :=
| Added (decoded : option (Z * Z)) (hasContext : bool) (image prompt : string)
        (type : Kind) (now : Z) (nowISO : string)
| Deleted (id : string)
| Cleared (confirmed : bool).

(** The state of [App] that the history is kept in: the array and the
    storage. *)
Definition State : Type := list value * localStorage.

(** One event.  A handler that calls [setHistory] makes the component
    render again, after which the save effect runs with the new history;
    [None] is an exception raised while rendering. *)
Definition step (toDataURL : Geometry.Encoder) (e : Event) (st : State)
    : option State :=
  let '(history, ls) := st in
  match e with
  | Added decoded hasContext image prompt type now nowISO =>
      match Geometry.resizeImage toDataURL image (of_Z HISTORY_IMAGE_SIZE) decoded hasContext with
      | inr _ => Some st
      | inl resizedImage =>
          match Geometry.parseDataUrl resizedImage with
          | None => Some st
          | Some _ =>
              let history' :=
                handleAddToHistory toDataURL decoded hasContext image prompt type
                                   now nowISO history in
              Some (history', saveHistoryEffect history' ls)
          end
      end
  | Deleted id =>
      match handleDeleteFromHistory id history with
      | Some history' => Some (history', saveHistoryEffect history' ls)
      | None => None
      end
  | Cleared confirmed =>
      if confirmed then
        let history' := handleClearHistory confirmed history in
        Some (history', saveHistoryEffect history' ls)
      else Some st
  end.



End Session.

(** ** Notions of the specification *)

Module Spec.

(** The entries the integration clause lists: those with both an image
    and a name that is not blank, in sequence order. *)
Definition integrated (l : list Character) : list Character :=
  filter (λ c, is_Some (image c) ∧ ¬ blank (name c)) l.


(** The bound of the history. *)
Definition bounded (history : list value) : Prop :=
  (length history ≤ 10)%nat.

(** Newest first: along the list the creation times never increase.  The
    times are ISO 8601 texts, which the order of strings orders by time. *)
Definition newestFirst (items : list History.HistoryItem) : Prop :=
  StronglySorted
    (λ a b, (History.createdAt b ≤ History.createdAt a)%string) items.

(** The encoding families, by MIME type, among the types a canvas reads
    or writes: the types whose encoding is lossy (those the quality
    argument of [toDataURL] applies to), and the types that can carry an
    alpha channel. *)
Definition lossy (mime : string) : Prop :=
  mime ∈ ["image/jpeg"; "image/webp"].
Definition alphaCapable (mime : string) : Prop :=
  mime ∈ ["image/png"; "image/webp"; "image/gif"].

(** A list after the entry [x] at position [i] has moved to position
    [j]. *)
Definition moved {T : Type} (l : list T) (i j : nat) (x : T) : list T :=
  take j (delete i l) ++ x :: drop j (delete i l).

(** A value that [JSON.parse] reads back from the text [JSON.stringify]
    writes for it, whatever follows the text, with a fuel of [F] or
    more. *)
Definition readsBack (F : nat) (v : value) : Prop :=
  ∀ (f : nat) (r : string), (F ≤ f)%nat →
    parseValue f (default "null" (JSON_stringify v) +:+ r) = Some (v, r).

(** The data URL of a payload of a MIME type. *)
Definition dataUrl (mime payload : string) : string :=
  "data:" +:+ mime +:+ ";base64," +:+ payload.

End Spec.

(** * Properties *)

(** ** White space and trimming *)

Section Trim.

Lemma trimEnd_empty_iff (s : string) :
  trimEnd s = EmptyString ↔ allWhite s = true.
Proof.
  destruct s as [|c r]; [done|].
  change (trimEnd (String c r))
    with (if allWhite (String c r) then EmptyString else String c (trimEnd r)).
  destruct (allWhite (String c r)); [done|]. split; discriminate.
Qed.

Lemma allWhite_trimStart (s : string) :
  allWhite (trimStart s) = allWhite s.
Proof.
  induction s as [s IH1 IH2 IH3] using string_ind3.
  destruct s as [|c1 r1]; [done|]. simpl.
  destruct (ws1 c1) eqn:E1; [by eapply IH1|].
  destruct r1 as [|c2 r2]; [by simpl; rewrite E1|].
  destruct (ws2 c1 c2) eqn:E2; [by eapply IH2|].
  destruct r2 as [|c3 r3]; [by simpl; rewrite E1, E2|].
  destruct (ws3 c1 c2 c3) eqn:E3; [by eapply IH3|].
  by simpl; rewrite E1, E2, E3.
Qed.

(** [trim] gives the empty string exactly on the blank strings. *)
Lemma trim_empty_iff (s : string) :
  trim s = EmptyString ↔ blank s.
Proof.
  unfold trim. by rewrite trimEnd_empty_iff, allWhite_trimStart, allWhite_blank.
Qed.

End Trim.

(** ** The prompt composer *)

Section StringFacts.

Lemma append_cons (c : ascii) (a b : string) :
  String c a +:+ b = String c (a +:+ b).
Proof. reflexivity. Qed.

Lemma append_assoc (a b c : string) : (a +:+ b) +:+ c = a +:+ (b +:+ c).
Proof.
  induction a as [|x a IH]; [reflexivity|].
  by rewrite !append_cons, IH.
Qed.


Lemma truthy_true_iff (s : string) : truthy s = true ↔ s ≠ EmptyString.
Proof. by destruct s. Qed.

End StringFacts.

Section PromptFacts.

Import Prompt Spec.

(** The clause is pushed whenever the description is not the empty
    string, white space or not. *)
Lemma sceneClause_pushed (st : State) :
  sceneDescription st ≠ EmptyString →
  sceneClause (sceneDescription st) ∈ promptParts st.
Proof.
  intros H%truthy_true_iff. unfold promptParts. rewrite H.
  apply elem_of_app. right. apply elem_of_app. left. apply elem_of_cons. by left.
Qed.

(** With the empty description no part is a scene clause: every part
    starts with other words. *)
Lemma sceneClause_absent (st : State) :
  sceneDescription st = EmptyString →
  Forall (λ p, startsWith p "The scene is: " = false) (promptParts st).
Proof.
  intros E. unfold promptParts, integrationInstructions, characterIntegration,
    elementIntegration, locationIntegration. rewrite E.
  destruct (truthy (characterNames st)), (truthy (elementNames st)),
    (sceneLocationImage st), (styleImage st),
    (hasCharacterImage st || hasElementImage st);
    repeat (first [apply Forall_nil_2 | apply Forall_cons_2]); reflexivity.
Qed.





(** Every description that is blank without being empty gives a scene
    clause, while the derived state says there is no description. *)
Lemma blank_description_pushed (st : State) :
  blank (sceneDescription st) →
  sceneDescription st ≠ EmptyString →
  hasSceneDescription st = false
  ∧ sceneClause (sceneDescription st) ∈ promptParts st.
Proof.
  intros Hb Hne. split; [|by apply sceneClause_pushed].
  unfold hasSceneDescription. apply bool_decide_eq_false_2.
  intros H. by apply H, trim_empty_iff.
Qed.

(** C1.  The claim: a blank scene description (empty or white space
    only) never gives a scene clause.  The composer tests the description
    itself and not its trimmed text: with the description of three spaces,
    which is blank and for which [hasSceneDescription] is false, the
    clause is pushed and the prompt reads "The scene is:    .". *)
Theorem C1_blank_description_is_rendered :
  let st := setSceneDescription "   " initialState in
  blank (sceneDescription st)
  ∧ hasSceneDescription st = false
  ∧ sceneClause "   " ∈ promptParts st
  ∧ newPrompt st =
      "Generate a cinematic image in a photorealistic style. The scene is:    . Use a eye-level shot with a 16:9 aspect ratio. The lighting is natural morning light."
  ∧ generatedPrompt (promptEffect st) = newPrompt st.
Proof.
  split; [by apply allWhite_blank|]. split; [reflexivity|].
  split; [by apply (sceneClause_pushed (setSceneDescription "   " initialState))|].
  split; reflexivity.
Qed.



End PromptFacts.

(** ** Numbers *)

Section NumberFacts.

Lemma Qred_inject_Z (z : Z) : Qred (inject_Z z) = inject_Z z.
Proof. apply Qred_identity. simpl. apply Z.gcd_1_r. Qed.

Lemma Qred_integer (q : Q) (z : Z) : (q == inject_Z z)%Q → Qred q = inject_Z z.
Proof. intros H. by rewrite (Qred_complete _ _ H), Qred_inject_Z. Qed.

Lemma Qfloor_half (z : Z) : Qfloor (inject_Z z + (1 # 2)) = z.
Proof.
  unfold Qfloor, Qplus, inject_Z. simpl.
  symmetry. apply (Z.div_unique _ _ _ 1); lia.
Qed.

(** [Math.round] leaves an integer as it is. *)
Lemma Math_round_of_Z (z : Z) : Math_round (of_Z z) = of_Z z.
Proof. unfold Math_round, of_Z. by rewrite Qfloor_half. Qed.

Lemma Qcompare_inject_Z (a b : Z) : (inject_Z a ?= inject_Z b)%Q = (a ?= b)%Z.
Proof. unfold Qcompare, inject_Z. simpl. by rewrite !Z.mul_1_r. Qed.

Lemma gt_of_Z (a b : Z) : gt (of_Z a) (of_Z b) = (b <? a)%Z.
Proof.
  unfold gt, of_Z. rewrite Qcompare_inject_Z, Z.ltb_antisym, Z.leb_compare.
  by destruct (a ?= b)%Z.
Qed.

Lemma sub_of_Z (a b : Z) : sub (of_Z a) (of_Z b) = of_Z (a - b).
Proof.
  unfold sub, of_Z. f_equal. apply Qred_integer.
  unfold Z.sub, Qminus. by rewrite inject_Z_plus, inject_Z_opp.
Qed.

Lemma isZero_inject_Z (z : Z) : isZero (inject_Z z) = bool_decide (z = 0).
Proof.
  unfold isZero. case_bool_decide as Hz.
  - subst. reflexivity.
  - apply not_true_iff_false. rewrite Qeq_bool_iff.
    change 0%Q with (inject_Z 0). by rewrite inject_Z_injective.
Qed.

End NumberFacts.

(** ** Image geometry *)

Section GeometryFacts.

Import Geometry Spec.

(** Fewer or more than two parts: the default. *)
Lemma parseAspectRatio_parts (ratioStr : string) :
  length (split ":" ratioStr) ≠ 2%nat →
  parseAspectRatio ratioStr = div (of_Z 16) (of_Z 9).
Proof.
  unfold parseAspectRatio.
  by destruct (split ":" ratioStr) as [|p0 [|p1 [|p2 ps]]].
Qed.

(** A denominator that reads as zero: the default. *)
Lemma parseAspectRatio_zero (ratioStr part0 part1 : string) :
  split ":" ratioStr = [part0; part1] →
  strictEq (parseFloat part1) (of_Z 0) = true →
  parseAspectRatio ratioStr = div (of_Z 16) (of_Z 9).
Proof.
  unfold parseAspectRatio, parseAspectRatio_try. by intros -> ->.
Qed.

(** The [try] block never raises: its [catch] is never entered. *)
Lemma parseAspectRatio_try_total (part0 part1 : string) :
  is_Some (parseAspectRatio_try part0 part1).
Proof. unfold parseAspectRatio_try. destruct (strictEq _ _); eauto. Qed.

(** Two parts and a denominator that is not zero: the quotient of what
    [parseFloat] reads, whatever it is. *)
Lemma parseAspectRatio_quotient (ratioStr part0 part1 : string) :
  split ":" ratioStr = [part0; part1] →
  strictEq (parseFloat part1) (of_Z 0) = false →
  parseAspectRatio ratioStr = div (parseFloat part0) (parseFloat part1).
Proof.
  unfold parseAspectRatio, parseAspectRatio_try. by intros -> ->.
Qed.


(** *** Padding to an aspect ratio *)

Lemma Qltb_inject_Z (a b : Z) : Qltb (inject_Z a) (inject_Z b) = (a <? b)%Z.
Proof.
  unfold Qltb. rewrite Qcompare_inject_Z. unfold Z.ltb.
  by destruct (a ?= b)%Z.
Qed.

(** The pixels a rectangle with integer corners meets. *)
Lemma covers_of_Z (x y w h i j : Z) :
  covers i j (mkDrawImage (of_Z x) (of_Z y) (of_Z w) (of_Z h))
  = (x <=? i)%Z && (i <? x + w)%Z && (y <=? j)%Z && (j <? y + h)%Z.
Proof.
  unfold covers, of_Z. cbn [dx dy dWidth dHeight].
  rewrite <- !inject_Z_plus, !Qltb_inject_Z.
  replace (x <? i + 1)%Z with (x <=? i)%Z by lia.
  replace (y <? j + 1)%Z with (y <=? j)%Z by lia.
  done.
Qed.

(** What [img.onload] computes, field by field.  The canvas keeps nothing
    of what was drawn on it before: the assignments clear it. *)
Lemma handleApply_onload_fields (w h : Z) (ratio : string) (c0 : Canvas) :
  let r := handleApply_onload w h ratio c0 in
  let target := parseAspectRatio ratio in
  width (canvas r) =
    Math_round (if gt (div (of_Z w) (of_Z h)) target
                then of_Z w else mul (of_Z h) target)
  ∧ height (canvas r) =
      Math_round (if gt (div (of_Z w) (of_Z h)) target
                  then div (of_Z w) target else of_Z h)
  ∧ xOffset r = div (sub (width (canvas r)) (of_Z w)) (of_Z 2)
  ∧ yOffset r = div (sub (height (canvas r)) (of_Z h)) (of_Z 2)
  ∧ drawn (canvas r) = [mkDrawImage (xOffset r) (yOffset r) (of_Z w) (of_Z h)]
  ∧ outType r = "image/png"
  ∧ outQuality r = of_Z 1.
Proof.
  unfold handleApply_onload.
  by destruct (gt (div (of_Z w) (of_Z h)) (parseAspectRatio ratio)).
Qed.

(** C5.  Padding to an aspect ratio: a source wider than the target keeps
    its width and gets the height [width / target]; otherwise it keeps its
    height and gets the width [height * target]; both are rounded to the
    nearest integer; the source is drawn at the offsets
    [(canvas width - width) / 2] and [(canvas height - height) / 2]; the
    pixels the source does not meet are transparent, whatever the canvas
    held before; the output is a PNG.  With the ratio "1:1" a source of
    200 by 100 gives a canvas of 200 by 200, the source at (0, 50), and
    the rows above 50 and from 150 on transparent. *)
Theorem C5_pad_to_aspect_ratio (w h : Z) (ratio : string) (c0 : Canvas) :
  let r := handleApply_onload w h ratio c0 in
  let target := parseAspectRatio ratio in
  (if gt (div (of_Z w) (of_Z h)) target
   then width (canvas r) = of_Z w
        ∧ height (canvas r) = Math_round (div (of_Z w) target)
   else height (canvas r) = of_Z h
        ∧ width (canvas r) = Math_round (mul (of_Z h) target))
  ∧ xOffset r = div (sub (width (canvas r)) (of_Z w)) (of_Z 2)
  ∧ yOffset r = div (sub (height (canvas r)) (of_Z h)) (of_Z 2)
  ∧ drawn (canvas r) = [mkDrawImage (xOffset r) (yOffset r) (of_Z w) (of_Z h)]
  ∧ (∀ i j : Z,
       transparentAt (canvas r) i j
       = negb (covers i j (mkDrawImage (xOffset r) (yOffset r) (of_Z w) (of_Z h))))
  ∧ outType r = "image/png"
  ∧ (let r1 := handleApply_onload 200 100 "1:1" c0 in
     width (canvas r1) = of_Z 200 ∧ height (canvas r1) = of_Z 200
     ∧ xOffset r1 = of_Z 0 ∧ yOffset r1 = of_Z 50
     ∧ ∀ i j : Z,
         transparentAt (canvas r1) i j
         = negb ((0 <=? i)%Z && (i <? 200)%Z && (50 <=? j)%Z && (j <? 150)%Z)).
Proof.
  intros r target.
  destruct (handleApply_onload_fields w h ratio c0)
    as (Hw & Hh & Hx & Hy & Hd & Ht & _).
  fold r target in Hw, Hh, Hx, Hy, Hd, Ht.
  split.
  { destruct (gt (div (of_Z w) (of_Z h)) target).
    - by rewrite Math_round_of_Z in Hw.
    - by rewrite Math_round_of_Z in Hh. }
  do 3 (split; [done|]).
  split.
  { intros i j. unfold transparentAt. rewrite Hd. simpl. by rewrite orb_false_r. }
  split; [done|].
  intros r1. do 4 (split; [reflexivity|]).
  intros i j. unfold transparentAt.
  change (drawn (canvas r1))
    with [mkDrawImage (of_Z 0) (of_Z 50) (of_Z 200) (of_Z 100)].
  simpl. by rewrite orb_false_r, covers_of_Z.
Qed.

(** *** A source that already has the target ratio *)

Lemma div_of_Z_pos (w h : Z) :
  (0 < h)%Z → div (of_Z w) (of_Z h) = Fin (Qred (inject_Z w / inject_Z h)).
Proof.
  intros Hh. unfold div, of_Z. rewrite isZero_inject_Z.
  rewrite bool_decide_eq_false_2 by lia. done.
Qed.

(** C10.  When the source's [width / height] is the target ratio, the
    comparison is false (the match-height branch), the canvas has the
    dimensions of the source, both offsets are 0, and the source covers
    the whole canvas: no pixel of it is left transparent. *)
Theorem C10_matching_ratio_is_identity (w h : Z) (ratio : string) (c0 : Canvas) :
  (0 < h)%Z →
  strictEq (div (of_Z w) (of_Z h)) (parseAspectRatio ratio) = true →
  let r := handleApply_onload w h ratio c0 in
  gt (div (of_Z w) (of_Z h)) (parseAspectRatio ratio) = false
  ∧ width (canvas r) = of_Z w
  ∧ height (canvas r) = of_Z h
  ∧ xOffset r = of_Z 0
  ∧ yOffset r = of_Z 0
  ∧ ∀ i j : Z,
      transparentAt (canvas r) i j
      = negb ((0 <=? i)%Z && (i <? w)%Z && (0 <=? j)%Z && (j <? h)%Z).
Proof.
  intros Hh Heq r.
  destruct (handleApply_onload_fields w h ratio c0)
    as (Hw & Hh' & Hx & Hy & Hd & _).
  fold r in Hw, Hh', Hx, Hy, Hd.
  rewrite div_of_Z_pos in * by done.
  destruct (parseAspectRatio ratio) as [| |q]; [done..|].
  apply Qeq_bool_eq in Heq. rewrite Qred_correct in Heq.
  assert (Hgt : gt (Fin (Qred (inject_Z w / inject_Z h))) (Fin q) = false).
  { unfold gt. rewrite Qred_correct, Heq.
    by rewrite (proj1 (Qeq_alt q q) (Qeq_refl q)). }
  rewrite Hgt in Hw, Hh'.
  assert (Hmul : mul (of_Z h) (Fin q) = of_Z w).
  { unfold mul, of_Z. f_equal. apply Qred_integer. rewrite <- Heq. field.
    change 0%Q with (inject_Z 0). rewrite inject_Z_injective. lia. }
  rewrite Hmul, Math_round_of_Z in Hw. rewrite Math_round_of_Z in Hh'.
  rewrite Hw, sub_of_Z, Z.sub_diag in Hx.
  rewrite Hh', sub_of_Z, Z.sub_diag in Hy.
  change (div (of_Z 0) (of_Z 2)) with (of_Z 0) in Hx, Hy.
  do 5 (split; [done|]).
  intros i j. unfold transparentAt. rewrite Hd, Hx, Hy. simpl.
  by rewrite orb_false_r, covers_of_Z.
Qed.

(** The claim for a source of 1600 by 900 and the ratio "16:9". *)
Lemma C10_witness :
  let r := handleApply_onload 1600 900 "16:9" createCanvas in
  gt (div (of_Z 1600) (of_Z 900)) (parseAspectRatio "16:9") = false
  ∧ width (canvas r) = of_Z 1600
  ∧ height (canvas r) = of_Z 900
  ∧ xOffset r = of_Z 0
  ∧ yOffset r = of_Z 0
  ∧ ∀ i j : Z,
      transparentAt (canvas r) i j
      = negb ((0 <=? i)%Z && (i <? 1600)%Z && (0 <=? j)%Z && (j <? 900)%Z).
Proof.
  apply (C10_matching_ratio_is_identity 1600 900 "16:9" createCanvas).
  - lia.
  - reflexivity.
Defined.

(** *** Resizing to a longest side *)

Lemma resizeImage_onload_fields (imageUrl : string) (t : number) (w h : Z) :
  let r := resizeImage_onload imageUrl t w h in
  let ratio := div (of_Z w) (of_Z h) in
  width (surface r) = Math_round (if (h <? w)%Z then t else mul t ratio)
  ∧ height (surface r) = Math_round (if (h <? w)%Z then div t ratio else t)
  ∧ drawn (surface r) =
      [mkDrawImage (of_Z 0) (of_Z 0)
         (if (h <? w)%Z then t else mul t ratio)
         (if (h <? w)%Z then div t ratio else t)]
  ∧ toType r =
      (if startsWith imageUrl "data:image/jpeg" then "image/jpeg" else "image/png")
  ∧ toQuality r = of_Z 1.
Proof.
  unfold resizeImage_onload. rewrite gt_of_Z. by destruct (h <? w)%Z.
Qed.


(** *** The encoding of the resized image *)

(** C7, as claimed, fails: a WebP data URL is of a lossy type, and it is
    re-encoded as PNG, which is not. *)
Lemma C7_counterexample :
  let r := resizeImage_onload (dataUrl "image/webp" "UklGRg") (of_Z 512) 1000 500 in
  lossy "image/webp" ∧ toType r = "image/png" ∧ ¬ lossy (toType r).
Proof.
  intros r. split; [|split; [reflexivity|]].
  - unfold lossy. rewrite !elem_of_cons. auto.
  - change (toType r) with "image/png". unfold lossy.
    rewrite !elem_of_cons, elem_of_nil. intros [|[|[]]]; discriminate.
Qed.

(** C7, amended.  The result is encoded as JPEG exactly when the URL
    starts with [data:image/jpeg], as PNG for every other input, at
    quality 1.  So a JPEG data URL stays lossy and a data URL of an
    alpha-capable type stays alpha-capable, while a data URL of another
    lossy type becomes a PNG and is lossy no more. *)
Theorem C7_output_type (imageUrl : string) (t : number) (w h : Z) :
  let r := resizeImage_onload imageUrl t w h in
  toType r =
    (if startsWith imageUrl "data:image/jpeg" then "image/jpeg" else "image/png")
  ∧ toQuality r = of_Z 1
  ∧ ∀ mime payload : string,
      imageUrl = dataUrl mime payload →
      (mime = "image/jpeg" → toType r = "image/jpeg" ∧ lossy (toType r))
      ∧ (alphaCapable mime → toType r = "image/png" ∧ alphaCapable (toType r))
      ∧ (lossy mime → mime ≠ "image/jpeg" →
         toType r = "image/png" ∧ ¬ lossy (toType r)).
Proof.
  intros r.
  destruct (resizeImage_onload_fields imageUrl t w h) as (_ & _ & _ & Ht & Hq).
  fold r in Ht, Hq. do 2 (split; [done|]).
  intros mime payload ->.
  assert (Hpng : ¬ lossy "image/png").
  { unfold lossy. rewrite !elem_of_cons, elem_of_nil. intros [|[|[]]]; discriminate. }
  assert (Hjpeg : lossy "image/jpeg").
  { unfold lossy. rewrite !elem_of_cons. auto. }
  assert (Hal : alphaCapable "image/png").
  { unfold alphaCapable. rewrite !elem_of_cons. auto. }
  split; [|split].
  - intros ->. by rewrite Ht.
  - unfold alphaCapable at 1. rewrite !elem_of_cons, elem_of_nil.
    intros [->|[->|[->|[]]]]; by rewrite Ht.
  - unfold lossy at 1. rewrite !elem_of_cons, elem_of_nil.
    intros [->|[->|[]]] Hne; [done|]. by rewrite Ht.
Qed.

(** The amended claim at a PNG data URL. *)
Lemma C7_witness :
  let r := resizeImage_onload (dataUrl "image/png" "iVBORw0KGgo") (of_Z 512) 1000 500 in
  toType r = "image/png" ∧ alphaCapable (toType r).
Proof.
  intros r.
  apply (proj2 (proj2 (C7_output_type (dataUrl "image/png" "iVBORw0KGgo")
                         (of_Z 512) 1000 500))
           "image/png" "iVBORw0KGgo" eq_refl).
  unfold alphaCapable. apply elem_of_cons. by left.
Defined.

End GeometryFacts.

(** ** The generation history *)

Section HistoryFacts.

Import History Spec.

(** *** Loading *)

Lemma saveHistoryEffect_empty (ls : localStorage) :
  saveHistoryEffect [] ls = delete generationHistory ls.
Proof. reflexivity. Qed.

Lemma JSON_parse_truthy (stored : string) (v : value) :
  JSON_parse stored = Some v → truthy stored = true.
Proof. by destruct stored. Qed.




(** C9.  A stored text that parses to an array: the load effect sets the
    first ten entries of it as the history, so the history a mount leaves
    has at most ten entries, and exactly ten when the stored array has
    more. *)
Theorem C9_load_truncates (ls : localStorage) (stored : string) (items : list value) :
  ls !! generationHistory = Some stored →
  JSON_parse stored = Some (Arr items) →
  loadHistoryEffect ls = (ls, Some (take MAX_HISTORY_ITEMS items))
  ∧ (mount ls).2 = take 10 items
  ∧ bounded (mount ls).2
  ∧ (mount ls).2 `prefix_of` items
  ∧ ((10 < length items)%nat → length (mount ls).2 = 10%nat).
Proof.
  intros Hls Hparse.
  assert (H : loadHistoryEffect ls = (ls, Some (take MAX_HISTORY_ITEMS items))).
  { unfold loadHistoryEffect.
    by rewrite Hls, (JSON_parse_truthy _ _ Hparse), Hparse. }
  assert (Hm : (mount ls).2 = take 10 items).
  { unfold mount. by rewrite H. }
  split; [done|]. split; [done|]. rewrite Hm.
  split; [unfold bounded; rewrite length_take; lia|].
  split; [apply prefix_take|].
  intros Hlen. rewrite length_take. lia.
Qed.

(** The claim at a stored array of twelve numbers. *)
Lemma C9_witness :
  let ls : localStorage := {[ generationHistory := "[1,2,3,4,5,6,7,8,9,10,11,12]" ]} in
  (mount ls).2 = take 10 (Num <$> ["1"; "2"; "3"; "4"; "5"; "6"; "7"; "8"; "9"; "10"; "11"; "12"])
  ∧ length (mount ls).2 = 10%nat.
Proof.
  intros ls.
  pose proof (C9_load_truncates ls "[1,2,3,4,5,6,7,8,9,10,11,12]"
                (fmap (M:=list) Num
                   ["1"; "2"; "3"; "4"; "5"; "6"; "7"; "8"; "9"; "10"; "11"; "12"])
                (lookup_singleton_eq _ _) eq_refl) as (_ & Hm & _ & _ & Hlen).
  split; [exact Hm|]. apply Hlen. simpl. lia.
Defined.

(** *** Appending, deleting, clearing *)

Lemma StronglySorted_sublist {A} (R : relation A) (l k : list A) :
  l `sublist_of` k → StronglySorted R k → StronglySorted R l.
Proof.
  induction 1 as [|x l k Hlk IH|x l k Hlk IH]; intros Hk; [done|..].
  - apply StronglySorted_cons in Hk as [Hx Hk].
    apply StronglySorted_cons. split; [|by apply IH].
    apply Forall_forall. intros y Hy.
    eapply (proj1 (Forall_forall _ _) Hx), elem_of_sublist; eauto.
  - apply StronglySorted_cons in Hk as [_ Hk]. by apply IH.
Qed.

(** The handler on its success path. *)
Lemma handleAddToHistory_success (toDataURL : Geometry.Encoder)
    (decoded : option (Z * Z)) (hasContext : bool) (image resized : string)
    (parsed : ImageFile) (prompt : string) (type : Kind) (now : Z)
    (nowISO : string) (prev : list value) :
  Geometry.resizeImage toDataURL image (of_Z HISTORY_IMAGE_SIZE) decoded hasContext
  = inl resized →
  Geometry.parseDataUrl resized = Some parsed →
  handleAddToHistory toDataURL decoded hasContext image prompt type now nowISO prev
  = take MAX_HISTORY_ITEMS
      (HistoryItem_value
         (mkHistoryItem (Kind_string type +:+ "-" +:+ decimal now) parsed prompt nowISO)
       :: prev).
Proof. intros Hr Hp. unfold handleAddToHistory. by rewrite Hr, Hp. Qed.

(** The handler when the resize is rejected or its data URL is invalid. *)
Lemma handleAddToHistory_failure (toDataURL : Geometry.Encoder)
    (decoded : option (Z * Z)) (hasContext : bool) (image : string)
    (prompt : string) (type : Kind) (now : Z) (nowISO : string) (prev : list value) :
  (∀ resized,
     Geometry.resizeImage toDataURL image (of_Z HISTORY_IMAGE_SIZE) decoded hasContext
     = inl resized →
     Geometry.parseDataUrl resized = None) →
  handleAddToHistory toDataURL decoded hasContext image prompt type now nowISO prev
  = prev.
Proof.
  intros H. unfold handleAddToHistory.
  destruct (Geometry.resizeImage _ _ _ _ _) as [resized|]; [|done].
  by rewrite (H resized eq_refl).
Qed.

(** Deleting keeps the other entries, in their order. *)
Lemma handleDeleteFromHistory_sublist (id : string) (prev h : list value) :
  handleDeleteFromHistory id prev = Some h → h `sublist_of` prev.
Proof.
  revert h. induction prev as [|item rest IH]; intros h; simpl.
  - by intros [= <-].
  - destruct (item_id item) as [v|]; [|done].
    destruct (handleDeleteFromHistory id rest) as [rest'|]; [|done].
    intros [= <-]. destruct (strictNeString v id).
    + by apply sublist_skip, IH.
    + by apply sublist_cons, IH.
Qed.

(** On a history of entries the handler built, deleting never raises: it
    filters on the [id] field. *)
Lemma handleDeleteFromHistory_items (id : string) (items : list HistoryItem) :
  handleDeleteFromHistory id (HistoryItem_value <$> items)
  = Some (HistoryItem_value <$> filter (λ x, History.id x ≠ id) items).
Proof.
  induction items as [|x items IH]; [done|].
  rewrite fmap_cons. cbn [handleDeleteFromHistory].
  rewrite IH. change (item_id (HistoryItem_value x)) with (Some (Str (History.id x))).
  cbn [strictNeString]. rewrite filter_cons.
  destruct (String.eqb_spec (History.id x) id) as [->|Hne].
  - by rewrite decide_False by (intros H; by apply H).
  - by rewrite decide_True.
Qed.

(** C8.  Appending prepends the new entry and keeps the first ten: the
    history after it has at most ten entries; a history of ten loses its
    last entry and nothing else, and still has ten.  On a history of
    entries that is newest first, with a clock that has not gone back, the
    result is newest first again and the entry lost is the one with the
    lowest creation time.  Deleting and clearing keep the bound and the
    order; a failed resize or an invalid data URL leaves the history as it
    is. *)
Theorem C8_history_bounded_newest_first (toDataURL : Geometry.Encoder)
    (decoded : option (Z * Z)) (hasContext : bool) (image resized : string)
    (parsed : ImageFile) (prompt : string) (type : Kind) (now : Z)
    (nowISO : string) (prev : list value) :
  Geometry.resizeImage toDataURL image (of_Z HISTORY_IMAGE_SIZE) decoded hasContext
  = inl resized →
  Geometry.parseDataUrl resized = Some parsed →
  bounded prev →
  let new :=
    mkHistoryItem (Kind_string type +:+ "-" +:+ decimal now) parsed prompt nowISO in
  let next :=
    handleAddToHistory toDataURL decoded hasContext image prompt type now nowISO prev in
  next = take 10 (HistoryItem_value new :: prev)
  ∧ bounded next
  ∧ ((length prev < 10)%nat → next = HistoryItem_value new :: prev)
  ∧ (∀ kept oldest,
       prev = kept ++ [oldest] → length prev = 10%nat →
       next = HistoryItem_value new :: kept ∧ length next = 10%nat)
  ∧ (∀ items : list HistoryItem,
       prev = HistoryItem_value <$> items →
       newestFirst items →
       (∀ x, x ∈ items → (createdAt x ≤ nowISO)%string) →
       next = HistoryItem_value <$> take 10 (new :: items)
       ∧ newestFirst (take 10 (new :: items))
       ∧ (∀ kept oldest x,
            items = kept ++ [oldest] → x ∈ items →
            (createdAt oldest ≤ createdAt x)%string)
       ∧ (∀ id,
            handleDeleteFromHistory id prev
            = Some (HistoryItem_value <$> filter (λ x, History.id x ≠ id) items)
            ∧ newestFirst (filter (λ x, History.id x ≠ id) items)))
  ∧ (∀ id h, handleDeleteFromHistory id prev = Some h →
             bounded h ∧ h `sublist_of` prev)
  ∧ bounded (handleClearHistory true prev)
  ∧ handleClearHistory false prev = prev
  ∧ (∀ enc d c,
       (∀ url,
          Geometry.resizeImage enc image (of_Z HISTORY_IMAGE_SIZE) d c = inl url →
          Geometry.parseDataUrl url = None) →
       handleAddToHistory enc d c image prompt type now nowISO prev = prev).
Proof.
  intros Hresized Hparsed Hprev new next. unfold bounded in *.
  assert (Hnext : next = take 10 (HistoryItem_value new :: prev))
    by apply (handleAddToHistory_success _ _ _ _ _ _ _ _ _ _ _ Hresized Hparsed).
  split; [done|]. rewrite Hnext.
  split; [rewrite length_take; lia|].
  split; [intros Hlt; apply take_ge; simpl; lia|].
  split.
  { intros kept oldest -> Hlen. rewrite length_app in Hlen. simpl in Hlen.
    change (take 10 (HistoryItem_value new :: kept ++ [oldest]))
      with (HistoryItem_value new :: take 9 (kept ++ [oldest])).
    rewrite take_app_length' by lia. split; [done|]. simpl. lia. }
  split.
  { intros items -> Hsorted Hclock.
    split; [by rewrite fmap_take|].
    split.
    { eapply StronglySorted_sublist; [apply sublist_take|].
      apply StronglySorted_cons. split; [|done].
      apply Forall_forall. intros x Hx. by apply Hclock. }
    split.
    { intros kept oldest x -> Hx. apply elem_of_app in Hx as [Hx|Hx].
      - unfold newestFirst in Hsorted.
        apply (StronglySorted_app_1_elem_of _ _ _ _ _ Hsorted Hx).
        apply elem_of_cons. by left.
      - apply elem_of_cons in Hx as [->|Hx]; [done|]. by apply elem_of_nil in Hx. }
    intros id. split; [apply handleDeleteFromHistory_items|].
    eapply StronglySorted_sublist; [apply sublist_filter|done]. }
  split.
  { intros id h Hh%handleDeleteFromHistory_sublist.
    split; [|done]. apply sublist_length in Hh. lia. }
  split; [simpl; lia|]. split; [done|].
  intros enc d c H. by apply handleAddToHistory_failure.
Qed.

(** The claim at a history of ten entries, one a day from the 10th of
    January 2024 back to the 1st, and an entry added on the 11th: the
    entry of the 1st is the one lost. *)
Lemma C8_witness :
  let toDataURL : Geometry.Encoder :=
    λ _ type _, "data:" +:+ type +:+ ";base64,iVBORw0KGgo" in
  let img := mkImageFile (Some "iVBORw0KGgo") "image/png" in
  let day d :=
    mkHistoryItem ("gen-" +:+ d) img "a scene" ("2024-01-" +:+ d +:+ "T00:00:00.000Z") in
  let kept := day <$> ["10"; "09"; "08"; "07"; "06"; "05"; "04"; "03"; "02"] in
  let prev := HistoryItem_value <$> (kept ++ [day "01"]) in
  let new :=
    mkHistoryItem "gen-1704931200000" img "a new scene" "2024-01-11T00:00:00.000Z" in
  let next :=
    handleAddToHistory toDataURL (Some (1024, 768)) true
      "data:image/png;base64,AAAA" "a new scene" gen
      1704931200000 "2024-01-11T00:00:00.000Z" prev in
  next = HistoryItem_value new :: (HistoryItem_value <$> kept)
  ∧ length next = 10%nat.
Proof.
  intros toDataURL img day kept prev new next.
  assert (Hprev : bounded prev) by (unfold bounded; simpl; lia).
  apply (proj1 (proj2 (proj2 (proj2
           (C8_history_bounded_newest_first toDataURL (Some (1024, 768)) true
              "data:image/png;base64,AAAA" "data:image/png;base64,iVBORw0KGgo"
              img "a new scene" gen 1704931200000 "2024-01-11T00:00:00.000Z" prev
              eq_refl eq_refl Hprev))))
           (HistoryItem_value <$> kept) (HistoryItem_value (day "01")));
    reflexivity.
Defined.

End HistoryFacts.

(** ** Data URLs *)

Section DataUrlFacts.

Import Geometry DataUrl.

Lemma occurs_app (c : ascii) (a b : string) :
  occurs c (a +:+ b) = occurs c a || occurs c b.
Proof.
  induction a as [|x a IH]; [done|].
  rewrite append_cons. simpl. by rewrite IH, orb_assoc.
Qed.

(** The parts of a split hold no separator. *)
Lemma split_parts (sep : ascii) (s : string) :
  Forall (λ p, occurs sep p = false) (split sep s).
Proof.
  induction s as [|c r IH]; simpl.
  - by repeat constructor.
  - destruct (Ascii.eqb_spec c sep) as [->|Hne].
    + by constructor.
    + destruct (split sep r) as [|p ps]; inversion IH; subst.
      * repeat constructor. simpl. by rewrite (proj2 (Ascii.eqb_neq _ _) Hne).
      * constructor; [|done]. simpl. by rewrite (proj2 (Ascii.eqb_neq _ _) Hne).
Qed.

Lemma split_nonempty (sep : ascii) (s : string) : split sep s ≠ [].
Proof.
  destruct s as [|c r]; simpl; [done|].
  destruct (Ascii.eqb c sep); [done|]. by destruct (split sep r).
Qed.

(** Splitting what was joined with one separator. *)
Lemma split_app (sep : ascii) (p q : string) :
  occurs sep p = false →
  split sep (p +:+ String sep q) = p :: split sep q.
Proof.
  induction p as [|c p IH]; intros Hp.
  - simpl. by rewrite Ascii.eqb_refl.
  - simpl in Hp. apply orb_false_iff in Hp as [Hc Hp].
    rewrite append_cons. simpl. rewrite Hc. by rewrite IH.
Qed.

Lemma split_none (sep : ascii) (p : string) :
  occurs sep p = false → split sep p = [p].
Proof.
  induction p as [|c p IH]; intros Hp; [done|].
  simpl in Hp. apply orb_false_iff in Hp as [Hc Hp].
  simpl. rewrite Hc. by rewrite IH.
Qed.

(** *** The match of [/:(.*?);/] *)

Lemma lazyToSemicolon_cons (c : ascii) (r : string) :
  lazyToSemicolon (String c r)
  = if Ascii.eqb c ";" then Some EmptyString
    else if lineTerminatorAt (String c r) then None
    else String c <$> lazyToSemicolon r.
Proof. destruct c as [[] [] [] [] [] [] [] []]; reflexivity. Qed.

Lemma lineTerminatorAt_not_break (c : ascii) (r : string) :
  lineTerminatorAt (String c r) = false →
  Ascii.eqb c "010" = false ∧ Ascii.eqb c "013" = false.
Proof. destruct c as [[] [] [] [] [] [] [] []]; done. Qed.

(** Whether a line terminator starts at a character does not depend on
    what follows the next semicolon. *)
Lemma lineTerminatorAt_tail (c : ascii) (m t1 t2 : string) :
  lineTerminatorAt (String c (m +:+ String ";" t1))
  = lineTerminatorAt (String c (m +:+ String ";" t2)).
Proof.
  destruct m as [|c2 [|c3 m]]; rewrite ?append_cons.
  - change (EmptyString +:+ String ";" t1) with (String ";" t1).
    change (EmptyString +:+ String ";" t2) with (String ";" t2).
    destruct c as [[] [] [] [] [] [] [] []]; reflexivity.
  - change (EmptyString +:+ String ";" t1) with (String ";" t1).
    change (EmptyString +:+ String ";" t2) with (String ";" t2).
    destruct c as [[] [] [] [] [] [] [] []]; try reflexivity;
      destruct c2 as [[] [] [] [] [] [] [] []]; reflexivity.
  - destruct c as [[] [] [] [] [] [] [] []]; try reflexivity;
      destruct c2 as [[] [] [] [] [] [] [] []]; try reflexivity;
      destruct c3 as [[] [] [] [] [] [] [] []]; reflexivity.
Qed.

(** What the lazy group matches: the text up to the next semicolon, which
    holds no semicolon and no line feed or carriage return; and it matches
    the same text whatever follows that semicolon. *)
Lemma lazyToSemicolon_spec (s m : string) :
  lazyToSemicolon s = Some m →
  (∃ tail, s = m +:+ String ";" tail)
  ∧ occurs ";" m = false ∧ occurs "010" m = false ∧ occurs "013" m = false
  ∧ ∀ tail', lazyToSemicolon (m +:+ String ";" tail') = Some m.
Proof.
  revert m. induction s as [|c r IH]; intros m; [done|].
  rewrite lazyToSemicolon_cons.
  destruct (Ascii.eqb_spec c ";") as [->|Hc].
  { intros [= <-]. split; [by exists r|]. by repeat split. }
  destruct (lineTerminatorAt (String c r)) eqn:Hlt; [done|].
  destruct (lazyToSemicolon r) as [m'|] eqn:Hr; [|done].
  intros [= <-]. destruct (IH m' eq_refl) as ([tail ->] & H1 & H2 & H3 & H4).
  destruct (lineTerminatorAt_not_break _ _ Hlt) as [Hlf Hcr].
  split; [by exists tail|]. cbn [occurs].
  rewrite H1, H2, H3, Hlf, Hcr, (proj2 (Ascii.eqb_neq _ _) Hc).
  repeat split. intros tail'. rewrite append_cons, lazyToSemicolon_cons.
  rewrite (proj2 (Ascii.eqb_neq _ _) Hc).
  by rewrite (lineTerminatorAt_tail c m' tail' tail), Hlt, H4.
Qed.

(** The group is matched at some colon of the text. *)
Lemma matchMime_spec (s m : string) :
  matchMime s = Some m →
  ∃ pre r, s = pre +:+ String ":" r ∧ lazyToSemicolon r = Some m.
Proof.
  induction s as [|c r IH]; [done|]. simpl.
  destruct (Ascii.eqb_spec c ":") as [->|Hc].
  - destruct (lazyToSemicolon r) as [m'|] eqn:Hr.
    + intros [= <-]. by exists EmptyString, r.
    + intros (pre & r' & -> & H)%IH. by exists (String ":" pre), r'.
  - intros (pre & r' & -> & H)%IH. by exists (String c pre), r'.
Qed.

Lemma matchMime_imageSrc_head (m : string) :
  occurs ";" m = false → occurs "010" m = false → occurs "013" m = false →
  (∃ r, lazyToSemicolon r = Some m) →
  matchMime ("data:" +:+ m +:+ ";base64") = Some m.
Proof.
  intros _ _ _ [r Hr].
  destruct (lazyToSemicolon_spec _ _ Hr) as (_ & _ & _ & _ & H).
  change ("data:" +:+ m +:+ ";base64")
    with (String "d" (String "a" (String "t" (String "a"
            (String ":" (m +:+ String ";" "base64")))))).
  simpl. by rewrite H.
Qed.

(** What [parseDataUrl] returns, in terms of the text. *)
Lemma parseDataUrl_spec (dataUrl : string) (f : ImageFile) :
  parseDataUrl dataUrl = Some f →
  ∃ p0 ps r,
    split "," dataUrl = p0 :: ps
    ∧ base64 f = head ps
    ∧ lazyToSemicolon r = Some (mimeType f)
    ∧ occurs "," p0 = false
    ∧ occurs "," (mimeType f) = false
    ∧ Forall (λ p, occurs "," p = false) ps.
Proof.
  unfold parseDataUrl. pose proof (split_parts "," dataUrl) as Hparts.
  destruct (split "," dataUrl) as [|p0 ps] eqn:Hs; [by apply split_nonempty in Hs|].
  simpl. destruct (matchMime p0) as [m|] eqn:Hm; [|done].
  intros [= <-]. simpl.
  apply Forall_cons in Hparts as [Hp0 Hps].
  destruct (matchMime_spec _ _ Hm) as (pre & r & -> & Hr).
  exists (pre +:+ String ":" r), ps, r.
  split; [done|]. split; [by destruct ps|]. split; [done|]. split; [done|].
  split; [|done].
  destruct (lazyToSemicolon_spec _ _ Hr) as ([tail ->] & _).
  rewrite !occurs_app in Hp0. simpl in Hp0. rewrite occurs_app in Hp0.
  apply orb_false_iff in Hp0 as [_ Hp0].
  by apply orb_false_iff in Hp0 as [Hp0 _].
Qed.

(** X1: an image [parseDataUrl] returned with a payload is read back from
    its own data URL: what the previews and the editor load is the image that
    was stored. *)
Theorem parseDataUrl_imageSrc (dataUrl : string) (f : ImageFile) :
  parseDataUrl dataUrl = Some f →
  is_Some (base64 f) →
  parseDataUrl (imageSrc f) = Some f.
Proof.
  intros Hf [b Hb].
  destruct (parseDataUrl_spec _ _ Hf) as (p0 & ps & r & Hs & Hps & Hr & Hp0 & Hm & Hall).
  destruct (lazyToSemicolon_spec _ _ Hr) as (_ & H1 & H2 & H3 & _).
  assert (Hbc : occurs "," b = false).
  { rewrite Hb in Hps. destruct ps as [|b' ps']; [done|]. simpl in Hps.
    injection Hps as ->. by apply Forall_cons in Hall as [? _]. }
  destruct f as [b64 m]. simpl in *. subst b64.
  assert (Hsrc : imageSrc (mkImageFile (Some b) m)
                 = ("data:" +:+ m +:+ ";base64") +:+ String "," b)
    by (by rewrite !append_assoc).
  unfold parseDataUrl. rewrite Hsrc.
  rewrite split_app, (split_none _ b) by
    (rewrite ?occurs_app; cbn [occurs]; by rewrite ?Hm, ?Hbc).
  cbn [hd]. rewrite matchMime_imageSrc_head by eauto. done.
Qed.

(** The claim at a PNG data URL. *)
Lemma parseDataUrl_imageSrc_witness :
  parseDataUrl (imageSrc (mkImageFile (Some "iVBORw0KGgo") "image/png"))
  = Some (mkImageFile (Some "iVBORw0KGgo") "image/png").
Proof.
  apply (parseDataUrl_imageSrc "data:image/png;base64,iVBORw0KGgo,ignored").
  - reflexivity.
  - simpl. eauto.
Defined.

Lemma split_single (sep : ascii) (s p : string) :
  split sep s = [p] → occurs sep s = false ∧ p = s.
Proof.
  revert p. induction s as [|c r IH]; intros p; simpl.
  - by intros [= <-].
  - destruct (Ascii.eqb c sep) eqn:E.
    + intros [= _ H]. by apply split_nonempty in H.
    + destruct (split sep r) as [|p' ps'] eqn:Hr; [by apply split_nonempty in Hr|].
      intros [= <- ->]. by destruct (IH p' eq_refl) as [-> ->].
Qed.

(** X2: what [parseDataUrl] returns is clean: the MIME type holds no
    semicolon, comma, line feed or carriage return, the payload holds no
    comma, and there is no payload exactly when the URL has no comma. *)
Theorem parseDataUrl_clean (dataUrl : string) (f : ImageFile) :
  parseDataUrl dataUrl = Some f →
  occurs ";" (mimeType f) = false
  ∧ occurs "," (mimeType f) = false
  ∧ occurs "010" (mimeType f) = false
  ∧ occurs "013" (mimeType f) = false
  ∧ (∀ b, base64 f = Some b → occurs "," b = false)
  ∧ (base64 f = None ↔ occurs "," dataUrl = false).
Proof.
  intros Hf.
  destruct (parseDataUrl_spec _ _ Hf) as (p0 & ps & r & Hs & Hps & Hr & Hp0 & Hm & Hall).
  destruct (lazyToSemicolon_spec _ _ Hr) as (_ & H1 & H2 & H3 & _).
  do 4 (split; [done|]). split.
  - intros b Hb. rewrite Hb in Hps. destruct ps as [|b' ps']; [done|].
    injection Hps as ->. by apply Forall_cons in Hall as [? _].
  - rewrite Hps. split.
    + destruct ps; [|done]. intros _. by apply split_single in Hs as [? _].
    + intros Hu. rewrite (split_none _ _ Hu) in Hs. by injection Hs as _ <-.
Qed.

(** The claim at a URL with two commas: what follows the second is
    dropped. *)
Lemma parseDataUrl_clean_witness :
  occurs ";" "image/png" = false
  ∧ occurs "," "image/png" = false
  ∧ occurs "010" "image/png" = false
  ∧ occurs "013" "image/png" = false
  ∧ (∀ b, Some "iVBORw0KGgo" = Some b → occurs "," b = false)
  ∧ (Some "iVBORw0KGgo" = None
     ↔ occurs "," "data:image/png;base64,iVBORw0KGgo,ignored" = false).
Proof.
  apply (parseDataUrl_clean "data:image/png;base64,iVBORw0KGgo,ignored"
           (mkImageFile (Some "iVBORw0KGgo") "image/png")).
  reflexivity.
Defined.

Lemma matchMime_none_semicolon (s : string) :
  occurs ";" s = false → matchMime s = None.
Proof.
  intros Hs. destruct (matchMime s) as [m|] eqn:Hm; [|done].
  destruct (matchMime_spec _ _ Hm) as (pre & r & -> & Hr).
  destruct (lazyToSemicolon_spec _ _ Hr) as ([tail ->] & _).
  rewrite occurs_app in Hs. cbn [occurs] in Hs. rewrite occurs_app in Hs.
  cbn [occurs] in Hs. rewrite Ascii.eqb_refl in Hs.
  by rewrite !orb_true_r in Hs.
Qed.

Lemma matchMime_none_colon (s : string) :
  occurs ":" s = false → matchMime s = None.
Proof.
  induction s as [|c r IH]; [done|]. cbn [occurs matchMime].
  intros [-> Hr]%orb_false_iff. by apply IH.
Qed.

Lemma occurs_first_part (c : ascii) (s : string) :
  occurs c s = false → occurs c (hd EmptyString (split "," s)) = false.
Proof.
  induction s as [|a r IH]; [done|]. cbn [occurs split].
  intros [Ha Hr]%orb_false_iff. specialize (IH Hr).
  destruct (Ascii.eqb a ","); [done|].
  destruct (split "," r) as [|p ps]; cbn [hd occurs] in *; by rewrite Ha.
Qed.

(** X3: [parseDataUrl] raises its error when the text before the first comma
    has no colon or no semicolon: so for every URL without a colon or
    without a semicolon, and for every URL that starts with [data:,], which
    is what an empty canvas is encoded as. *)
Theorem parseDataUrl_rejects (dataUrl : string) :
  (occurs ":" (hd EmptyString (split "," dataUrl)) = false
   ∨ occurs ";" (hd EmptyString (split "," dataUrl)) = false
   → parseDataUrl dataUrl = None)
  ∧ (occurs ":" dataUrl = false ∨ occurs ";" dataUrl = false →
     parseDataUrl dataUrl = None)
  ∧ parseDataUrl ("data:," +:+ dataUrl) = None
  ∧ handleFileChange (Some (Some ("data:," +:+ dataUrl))) = Some None.
Proof.
  assert (H1 : occurs ":" (hd EmptyString (split "," dataUrl)) = false
               ∨ occurs ";" (hd EmptyString (split "," dataUrl)) = false
               → parseDataUrl dataUrl = None).
  { unfold parseDataUrl. intros [H|H].
    - by rewrite (matchMime_none_colon _ H).
    - by rewrite (matchMime_none_semicolon _ H). }
  split; [done|]. split; [intros [H|H]; apply H1; auto using occurs_first_part|].
  assert (H2 : parseDataUrl ("data:," +:+ dataUrl) = None) by reflexivity.
  split; [done|]. unfold handleFileChange. by rewrite H2.
Qed.

(** The claim at a text with no colon. *)
Lemma parseDataUrl_rejects_witness : parseDataUrl "image/png;base64,AAAA" = None.
Proof.
  apply (proj1 (proj2 (parseDataUrl_rejects "image/png;base64,AAAA"))).
  left. reflexivity.
Defined.

End DataUrlFacts.

(** ** More on the image geometry *)

Section GeometryBounds.

Import Geometry.

(** Rounding a quotient of integers: the result is within a half of it. *)
Lemma round_quotient (x : Q) (a b : Z) :
  (0 < b)%Z → (x == inject_Z a / inject_Z b)%Q →
  let n := Qfloor (x + (1 # 2)) in
  (2 * n * b - b <= 2 * a < 2 * n * b + b)%Z.
Proof.
  intros Hb Hx n.
  assert (Hn : n = ((2 * a + b) / (2 * b))%Z).
  { unfold n. destruct b as [|b|b]; [lia| |lia].
    assert (Hq : (x + (1 # 2) == (2 * a + Z.pos b) # (2 * b))%Q).
    { rewrite Hx. unfold Qeq, Qdiv, Qmult, Qplus, Qinv, inject_Z. simpl. lia. }
    by rewrite Hq. }
  pose proof (Z.div_mod (2 * a + b) (2 * b) ltac:(lia)) as Hdm.
  pose proof (Z.mod_pos_bound (2 * a + b) (2 * b) ltac:(lia)) as Hmod.
  rewrite <- Hn in Hdm. nia.
Qed.

Lemma isZero_false (q : Q) : ¬ (q == 0)%Q → isZero q = false.
Proof.
  intros H. unfold isZero. apply not_true_iff_false. by rewrite Qeq_bool_iff.
Qed.

Lemma inject_Z_nonzero (z : Z) : z ≠ 0%Z → ¬ (inject_Z z == 0)%Q.
Proof. intros Hz H. apply Hz. by apply inject_Z_injective. Qed.

(** [t / (w / h)] and [t * (w / h)] for a source of positive dimensions. *)
Lemma div_by_ratio (t w h : Z) :
  (0 < w)%Z → (0 < h)%Z →
  ∃ x, div (of_Z t) (div (of_Z w) (of_Z h)) = Fin x
       ∧ (x == inject_Z (t * h) / inject_Z w)%Q.
Proof.
  intros Hw Hh. rewrite div_of_Z_pos by done. unfold div at 1, of_Z.
  assert (Hw' := inject_Z_nonzero w ltac:(lia)).
  assert (Hh' := inject_Z_nonzero h ltac:(lia)).
  rewrite isZero_false.
  - eexists. split; [done|]. rewrite !Qred_correct, inject_Z_mult. by field.
  - rewrite Qred_correct. intros H. apply Hw'.
    rewrite <- (Qmult_0_l (inject_Z h)), <- H. by field.
Qed.

Lemma mul_by_ratio (t w h : Z) :
  (0 < h)%Z →
  ∃ x, mul (of_Z t) (div (of_Z w) (of_Z h)) = Fin x
       ∧ (x == inject_Z (t * w) / inject_Z h)%Q.
Proof.
  intros Hh. rewrite div_of_Z_pos by done. unfold mul, of_Z.
  assert (Hh' := inject_Z_nonzero h ltac:(lia)).
  eexists. split; [done|]. rewrite !Qred_correct, inject_Z_mult. by field.
Qed.



(** *** Padding never crops *)

Lemma Qltb_true (p q : Q) : Qltb p q = true → (p < q)%Q.
Proof.
  unfold Qltb. destruct (Qcompare_spec p q); [done| |done]. done.
Qed.

(** The pixels met by a source drawn at half the slack lie in the canvas. *)
Lemma covers_centred (i j w h W H : Z) :
  (w <= W)%Z → (h <= H)%Z →
  covers i j (mkDrawImage (div (of_Z (W - w)) (of_Z 2))
                          (div (of_Z (H - h)) (of_Z 2)) (of_Z w) (of_Z h)) = true →
  (0 <= i < W)%Z ∧ (0 <= j < H)%Z.
Proof.
  intros Hw Hh.
  change (div (of_Z (W - w)) (of_Z 2))
    with (Fin (Qred (inject_Z (W - w) / inject_Z 2))).
  change (div (of_Z (H - h)) (of_Z 2))
    with (Fin (Qred (inject_Z (H - h) / inject_Z 2))).
  unfold covers, of_Z. cbn [dx dy dWidth dHeight].
  rewrite !andb_true_iff. intros [[[H1 H2] H3] H4].
  apply Qltb_true in H1, H2, H3, H4.
  rewrite Qred_correct in H1, H2, H3, H4.
  revert H1 H2 H3 H4.
  unfold Qlt, Qdiv, Qmult, Qplus, Qinv, inject_Z. simpl. lia.
Qed.

Lemma gt_Fin (p q : Q) : gt (Fin p) (Fin q) = true ↔ (q < p)%Q.
Proof.
  unfold gt. destruct (Qcompare_spec p q) as [H|H|H].
  - split; [done|]. intros H'. rewrite H in H'. by apply Qlt_irrefl in H'.
  - split; [done|]. intros H'. by apply (Qlt_trans _ _ _ H'), Qlt_irrefl in H.
  - done.
Qed.

(** X5: padding to a positive ratio never crops: for a source of positive
    dimensions the canvas is at least as wide and as high as the source,
    one of its two dimensions is the source's, each offset is half the
    slack of its axis, and every pixel the source is drawn on lies in the
    canvas. *)
Theorem pad_contains_source (w h : Z) (ratio : string) (q : Q) (c0 : Canvas) :
  (0 < w)%Z → (0 < h)%Z →
  parseAspectRatio ratio = Fin q → (0 < q)%Q →
  let r := handleApply_onload w h ratio c0 in
  ∃ W H : Z,
    width (canvas r) = of_Z W ∧ height (canvas r) = of_Z H
    ∧ (w <= W)%Z ∧ (h <= H)%Z ∧ (W = w ∨ H = h)
    ∧ xOffset r = div (of_Z (W - w)) (of_Z 2)
    ∧ yOffset r = div (of_Z (H - h)) (of_Z 2)
    ∧ ∀ i j : Z,
        transparentAt (canvas r) i j = false → (0 <= i < W)%Z ∧ (0 <= j < H)%Z.
Proof.
  intros Hw Hh Hq Hpos r.
  destruct (handleApply_onload_fields w h ratio c0)
    as (HW & HH & Hx & Hy & Hd & _).
  fold r in HW, HH, Hx, Hy, Hd. rewrite Hq in HW, HH.
  assert (Hw' := inject_Z_nonzero w ltac:(lia)).
  assert (Hh' := inject_Z_nonzero h ltac:(lia)).
  assert (Hq0 : ¬ (q == 0)%Q) by (intros H; rewrite H in Hpos; by apply Qlt_irrefl in Hpos).
  assert (Hfin : ∀ W H : Z,
            width (canvas r) = of_Z W → height (canvas r) = of_Z H →
            (w <= W)%Z → (h <= H)%Z → (W = w ∨ H = h) →
            ∃ W H : Z,
              width (canvas r) = of_Z W ∧ height (canvas r) = of_Z H
              ∧ (w <= W)%Z ∧ (h <= H)%Z ∧ (W = w ∨ H = h)
              ∧ xOffset r = div (of_Z (W - w)) (of_Z 2)
              ∧ yOffset r = div (of_Z (H - h)) (of_Z 2)
              ∧ ∀ i j : Z,
                  transparentAt (canvas r) i j = false →
                  (0 <= i < W)%Z ∧ (0 <= j < H)%Z).
  { intros W H EW EH LW LH Hor. exists W, H.
    rewrite EW, sub_of_Z in Hx. rewrite EH, sub_of_Z in Hy.
    do 7 (split; [done|]). intros i j. unfold transparentAt.
    rewrite Hd, Hx, Hy. cbn [existsb]. rewrite orb_false_r.
    intros Hc%negb_false_iff. by apply (covers_centred i j w h W H). }
  destruct q as [a b]. assert (Ha : (0 < a)%Z).
  { revert Hpos. unfold Qlt. simpl. lia. }
  rewrite div_of_Z_pos in HW, HH by done.
  destruct (gt (Fin (Qred (inject_Z w / inject_Z h))) (Fin (a # b))) eqn:Hgt.
  - apply gt_Fin in Hgt. rewrite Qred_correct in Hgt.
    assert (Hcmp : (a * h < w * Z.pos b)%Z).
    { revert Hgt. destruct h as [|hp|hp]; [lia| |lia].
      unfold Qlt, Qdiv, Qmult, Qinv, inject_Z. simpl. lia. }
    rewrite Math_round_of_Z in HW.
    unfold div, of_Z in HH. rewrite isZero_false in HH by done.
    cbn [Math_round] in HH.
    assert (Hxq : (Qred (inject_Z w / (a # b)) == inject_Z (w * Z.pos b) / inject_Z a)%Q).
    { rewrite Qred_correct, inject_Z_mult.
      assert (Ha' := inject_Z_nonzero a ltac:(lia)).
      assert (Hab : (a # b == inject_Z a / inject_Z (Z.pos b))%Q)
        by (unfold Qeq, Qdiv, Qmult, Qinv, inject_Z; simpl; lia).
      rewrite Hab. field. split; [done|]. by apply inject_Z_nonzero. }
    pose proof (round_quotient _ (w * Z.pos b) a Ha Hxq) as Hr. cbv zeta in Hr.
    eapply Hfin; [done|done|lia| |by left]. nia.
  - apply not_true_iff_false in Hgt. rewrite gt_Fin, Qred_correct in Hgt.
    apply Qnot_lt_le in Hgt.
    assert (Hcmp : (w * Z.pos b <= a * h)%Z).
    { revert Hgt. destruct h as [|hp|hp]; [lia| |lia].
      unfold Qle, Qdiv, Qmult, Qinv, inject_Z. simpl. lia. }
    rewrite Math_round_of_Z in HH.
    unfold mul, of_Z in HW. cbn [Math_round] in HW.
    assert (Hxq : (Qred (inject_Z h * (a # b)) == inject_Z (h * a) / inject_Z (Z.pos b))%Q).
    { rewrite Qred_correct, inject_Z_mult.
      assert (Hab : (a # b == inject_Z a / inject_Z (Z.pos b))%Q)
        by (unfold Qeq, Qdiv, Qmult, Qinv, inject_Z; simpl; lia).
      rewrite Hab. field. by apply inject_Z_nonzero. }
    pose proof (round_quotient _ (h * a) (Z.pos b) ltac:(lia) Hxq) as Hr.
    cbv zeta in Hr.
    eapply Hfin; [done|done| |lia|by right]. nia.
Qed.

(** The claim at a source of 200 by 100 and the ratio "16:9". *)
Lemma pad_contains_source_witness :
  let r := handleApply_onload 200 100 "16:9" createCanvas in
  ∃ W H : Z,
    width (canvas r) = of_Z W ∧ height (canvas r) = of_Z H
    ∧ (200 <= W)%Z ∧ (100 <= H)%Z ∧ (W = 200 ∨ H = 100)
    ∧ xOffset r = div (of_Z (W - 200)) (of_Z 2)
    ∧ yOffset r = div (of_Z (H - 100)) (of_Z 2)
    ∧ ∀ i j : Z,
        transparentAt (canvas r) i j = false → (0 <= i < W)%Z ∧ (0 <= j < H)%Z.
Proof.
  apply (pad_contains_source 200 100 "16:9" (16 # 9) createCanvas);
    [lia|lia|reflexivity|reflexivity].
Defined.

End GeometryBounds.

(** ** The options of the selects *)

Section ConstantsFacts.
Import Geometry Constants Elements.

(** X6: every option of the aspect-ratio select parses to a positive
    finite ratio, so neither the fallback nor a ratio that is not a number
    is reached from the select; and every option of the image-count select
    is read by [parseInt] as an integer from 1 to 4. *)
Theorem select_options_parse (t : string → string) (o : SelectOption) :
  (o ∈ getAspectRatioOptions t →
     ∃ q : Q, parseAspectRatio (Constants.value o) = Fin q ∧ (0 < q)%Q)
  ∧ (o ∈ getNumberOfImagesOptions t →
     ∃ n : Z, parseInt (Constants.value o) = of_Z n ∧ (1 <= n <= 4)%Z).
Proof.
  split; intros Ho.
  - unfold getAspectRatioOptions in Ho.
    repeat (apply elem_of_cons in Ho as [->|Ho];
            [eexists; split; [reflexivity|reflexivity]|]).
    by apply elem_of_nil in Ho.
  - unfold getNumberOfImagesOptions in Ho.
    repeat (apply elem_of_cons in Ho as [->|Ho];
            [eexists; split; [vm_compute; reflexivity|lia]|]).
    by apply elem_of_nil in Ho.
Qed.

Lemma select_options_parse_witness :
  (∃ q : Q, parseAspectRatio "2.39:1" = Fin q ∧ (0 < q)%Q)
  ∧ (∃ n : Z, parseInt "3" = of_Z n ∧ (1 <= n <= 4)%Z).
Proof.
  split.
  - apply (select_options_parse (λ k, k) (mkSelectOption "2.39:1" "constants.aspectRatios.cinemascope")).
    unfold getAspectRatioOptions. set_solver.
  - apply (select_options_parse (λ k, k) (mkSelectOption "3" "constants.imageCount.three")).
    unfold getNumberOfImagesOptions. set_solver.
Defined.

End ConstantsFacts.

(** ** The lists of characters and objects *)

Section ElementsFacts.
Import Elements Spec.
Context {T : Type}.
Implicit Types (l : list T) (i j : nat).

(** An index that is a natural number is clamped to the length. *)
Lemma spliceStart_nat (len i : nat) :
  spliceStart len (of_Z (Z.of_nat i)) = Nat.min i len.
Proof.
  unfold spliceStart, of_Z, inject_Z. cbn [Qnum Qden].
  rewrite Z.quot_1_r. destruct (Z.ltb_spec (Z.of_nat i) 0); [lia|].
  by rewrite Nat2Z.id.
Qed.

Lemma handleReorder_in_range l i j x :
  l !! i = Some x → (j < length l)%nat →
  handleReorder l (of_Z (Z.of_nat i)) (of_Z (Z.of_nat j)) = Some <$> moved l i j x.
Proof.
  intros Hi Hj. pose proof (lookup_lt_Some _ _ _ Hi) as Hlt.
  unfold handleReorder, moved. rewrite !spliceStart_nat.
  rewrite (Nat.min_l i) by lia. rewrite Hi.
  rewrite (length_delete _ i) by (by rewrite Hi).
  rewrite (Nat.min_l j) by lia.
  by rewrite fmap_app, fmap_cons.
Qed.

Lemma moved_facts l i j x :
  l !! i = Some x → (j < length l)%nat →
  moved l i j x ≡ₚ l ∧ length (moved l i j x) = length l
  ∧ moved l i j x !! j = Some x ∧ delete j (moved l i j x) = delete i l.
Proof.
  intros Hi Hj. pose proof (lookup_lt_Some _ _ _ Hi) as Hlt.
  assert (Hd : length (delete i l) = (length l - 1)%nat)
    by (apply length_delete; by rewrite Hi).
  assert (Ht : length (take j (delete i l)) = j)
    by (rewrite length_take; lia).
  unfold moved. split_and!.
  - rewrite <- Permutation_middle, take_drop. symmetry. by apply delete_Permutation.
  - rewrite length_app. cbn [length]. rewrite Ht, length_drop. lia.
  - rewrite <- Ht at 3. by rewrite list_lookup_middle.
  - rewrite <- Ht at 1. by rewrite delete_middle, take_drop.
Qed.

Lemma moved_back l i j x :
  l !! i = Some x → (j < length l)%nat → moved (moved l i j x) j i x = l.
Proof.
  intros Hi Hj. destruct (moved_facts l i j x Hi Hj) as (_ & _ & _ & Hdel).
  unfold moved at 1. rewrite Hdel, delete_take_drop.
  pose proof (lookup_lt_Some _ _ _ Hi) as Hlt.
  rewrite take_app_length' by (rewrite length_take; lia).
  rewrite drop_app_length' by (rewrite length_take; lia).
  by apply take_drop_middle.
Qed.

(** X7: moving an entry between two positions of a list only permutes
    the list: the entry lands on the drop position, the other entries keep
    their order, and moving it back restores the list. *)
Theorem handleReorder_moves l i j (x : T) :
  l !! i = Some x → (j < length l)%nat →
  ∃ l' : list T,
    handleReorder l (of_Z (Z.of_nat i)) (of_Z (Z.of_nat j)) = Some <$> l'
    ∧ l' ≡ₚ l ∧ length l' = length l
    ∧ l' !! j = Some x ∧ delete j l' = delete i l
    ∧ handleReorder l' (of_Z (Z.of_nat j)) (of_Z (Z.of_nat i)) = Some <$> l.
Proof.
  intros Hi Hj. exists (moved l i j x).
  destruct (moved_facts l i j x Hi Hj) as (Hp & Hlen & Hj' & Hdel).
  split_and!; [by apply handleReorder_in_range|done..|].
  rewrite (handleReorder_in_range _ j i x) by (done || (rewrite Hlen; by eapply lookup_lt_Some)).
  by rewrite moved_back.
Qed.

End ElementsFacts.

Lemma handleReorder_moves_witness :
  ∃ l' : list Z,
    Elements.handleReorder [10; 20; 30; 40] (of_Z (Z.of_nat 0)) (of_Z (Z.of_nat 2)) = Some <$> l'
    ∧ l' ≡ₚ [10; 20; 30; 40] ∧ length l' = length [10; 20; 30; 40]
    ∧ l' !! 2%nat = Some 10 ∧ delete 2%nat l' = delete 0%nat [10; 20; 30; 40]
    ∧ Elements.handleReorder l' (of_Z (Z.of_nat 2)) (of_Z (Z.of_nat 0)) = Some <$> [10; 20; 30; 40].
Proof.
  apply (handleReorder_moves [10; 20; 30; 40] 0 2 10); [reflexivity|simpl; lia].
Defined.

(** *** Drag and drop *)

Section DragFacts.
Import Elements Spec.

(** A character of the ASCII range that is no white space ends the
    trimming. *)
Lemma trimStart_ascii (c : ascii) (r : string) :
  (N_of_ascii c < 128)%N → ws1 c = false → trimStart (String c r) = String c r.
Proof.
  intros Hc Hw. cbn [trimStart]. rewrite Hw.
  destruct c as [b0 b1 b2 b3 b4 b5 b6 []]; [by destruct b0, b1, b2, b3, b4, b5, b6|].
  destruct r as [|c2 [|c3 r]]; [done|..];
    by destruct b0, b1, b2, b3, b4, b5, b6.
Qed.

Lemma digit_ascii (c : ascii) (d : Z) :
  digit c = Some d → (N_of_ascii c < 128)%N ∧ ws1 c = false ∧ c ≠ "-"%char ∧ c ≠ "+"%char.
Proof.
  intros H.
  assert (Hm : c ≠ "-"%char ∧ c ≠ "+"%char) by (split; intros ->; by vm_compute in H).
  revert H. unfold digit, ws1. intros H.
  destruct (48 <=? Z.of_N (N_of_ascii c)) eqn:E1; [|done].
  destruct (Z.of_N (N_of_ascii c) <=? 57) eqn:E2; [|done].
  apply Z.leb_le in E1, E2.
  destruct Hm. split_and!; [lia| |done..].
  apply orb_false_iff; split; [apply andb_false_iff; right|]; [apply N.leb_gt|apply N.eqb_neq]; lia.
Qed.

(** On a text that starts with a digit [parseInt] reads its digits. *)
Lemma parseInt_unsigned (c : ascii) (r : string) (d : Z) :
  digit c = Some d →
  parseInt (String c r) =
    match digits 0 (String c r) with
    | (_, O, _) => NaN
    | (v, S _, _) => of_Z v
    end.
Proof.
  intros Hd. destruct (digit_ascii c d Hd) as (Hc & Hw & Hm & Hp).
  unfold parseInt. rewrite trimStart_ascii by done.
  destruct c as [[] [] [] [] [] [] [] []]; done.
Qed.

Lemma digits_uint_acc (d : Decimal.uint) (p : positive) :
  digits (Z.pos p) (DecimalString.NilEmpty.string_of_uint d)
  = (Z.pos (Pos.of_uint_acc d p), Decimal.nb_digits d, EmptyString).
Proof.
  revert p. induction d; intros p; [done|..];
    cbn [DecimalString.NilEmpty.string_of_uint digits Decimal.nb_digits Pos.of_uint_acc];
    match goal with
    | |- context [digit ?c] =>
        let v := eval vm_compute in (digit c) in change (digit c) with v; cbv iota
    end;
    match goal with
    | |- context [digits ?a _] =>
        match goal with
        | |- context [Pos.of_uint_acc _ ?q] =>
            replace a with (Z.pos q) by lia
        end
    end;
    by rewrite IHd.
Qed.

Lemma digits_uint (d : Decimal.uint) :
  digits 0 (DecimalString.NilEmpty.string_of_uint d)
  = (Z.of_N (Pos.of_uint d), Decimal.nb_digits d, EmptyString).
Proof.
  induction d; [done|..];
    cbn [DecimalString.NilEmpty.string_of_uint digits Decimal.nb_digits Pos.of_uint];
    match goal with
    | |- context [digit ?c] =>
        let v := eval vm_compute in (digit c) in change (digit c) with v; cbv iota
    end;
    [change (10 * 0 + 0) with 0; by rewrite IHd|..];
    match goal with
    | |- context [digits ?a _] =>
        let v := eval vm_compute in a in change a with v
    end;
    by rewrite digits_uint_acc.
Qed.

(** The decimal text of a positive number. *)
Lemma decimal_pos (p : positive) :
  ∃ c r d, DecimalString.NilEmpty.string_of_uint (Pos.to_uint p) = String c r
           ∧ History.decimal (Z.pos p) = String c r
           ∧ History.decimal (Z.neg p) = String "-" (String c r)
           ∧ digit c = Some d.
Proof.
  unfold History.decimal. cbn [Z.to_int DecimalString.NilZero.string_of_int].
  pose proof (DecimalPos.Unsigned.to_uint_nonnil p) as Hn.
  destruct (Pos.to_uint p) as [|u|u|u|u|u|u|u|u|u|u]; [done|..];
    do 3 eexists; (split_and!; [reflexivity..|]); by vm_compute.
Qed.

(** [parseInt] reads back the decimal text of an integer. *)
Lemma parseInt_decimal (z : Z) : parseInt (History.decimal z) = of_Z z.
Proof.
  destruct z as [|p|p]; [done|..];
    destruct (decimal_pos p) as (c & r & d & Hs & Hp & Hn & Hd).
  - rewrite Hp, (parseInt_unsigned c r d Hd), <- Hs, digits_uint.
    rewrite DecimalPos.Unsigned.of_to. cbn [Z.of_N].
    pose proof (DecimalPos.Unsigned.to_uint_nonnil p).
    by destruct (Pos.to_uint p).
  - rewrite Hn. unfold parseInt.
    rewrite trimStart_ascii by done.
    cbv iota. rewrite <- Hs, digits_uint.
    rewrite DecimalPos.Unsigned.of_to. cbn [Z.of_N].
    pose proof (DecimalPos.Unsigned.to_uint_nonnil p).
    by destruct (Pos.to_uint p).
Qed.

Lemma strictEq_of_Z (a b : Z) : strictEq (of_Z a) (of_Z b) = bool_decide (a = b).
Proof.
  unfold strictEq, of_Z. destruct (bool_decide_reflect (a = b)) as [->|Hne].
  - apply Qeq_bool_refl.
  - apply not_true_is_false. intros H%Qeq_bool_iff. apply Hne. by apply inject_Z_injective.
Qed.

(** The list after a move from a position past its end. *)
Lemma handleReorder_past_end {T : Type} (l : list T) (i j : nat) :
  (length l ≤ i)%nat → (j ≤ length l)%nat →
  handleReorder l (of_Z (Z.of_nat i)) (of_Z (Z.of_nat j))
  = (Some <$> take j l) ++ None :: (Some <$> drop j l).
Proof.
  intros Hi Hj. unfold handleReorder. rewrite !spliceStart_nat.
  rewrite (Nat.min_r i) by lia.
  rewrite (lookup_ge_None_2 l (length l)) by lia.
  assert (Hd : delete (length l) l = l).
  { rewrite delete_take_drop, (take_ge l (length l)), (drop_ge l (S (length l))) by lia.
    apply app_nil_r. }
  rewrite Hd. by rewrite (Nat.min_l j) by lia.
Qed.

(** X8: a drop reads back the index the start of the drag wrote in the
    data transfer.  On the position the drag started from the list is left
    alone; on another position the dragged entry moves there; either way
    the drag state is cleared. *)
Theorem handleDrop_reads_drag_index {T : Type} (l : list T) (ident : Z)
    (i j : nat) (x : T) (st : DragState) :
  l !! i = Some x → (j < length l)%nat →
  draggedItemId (handleDragStart ident i st).2 = Some ident
  ∧ handleDrop l (handleDragStart ident i st).1 j
    = (if decide (i = j) then None else Some (Some <$> moved l i j x), handleDragEnd).
Proof.
  intros Hi Hj. split; [done|].
  unfold handleDrop, handleDragStart, handleDragEnd. cbn [fst].
  rewrite parseInt_decimal, strictEq_of_Z.
  destruct (decide (i = j)) as [->|Hne].
  - by rewrite bool_decide_eq_true_2.
  - rewrite bool_decide_eq_false_2 by lia.
    by rewrite (handleReorder_in_range l i j x).
Qed.

Lemma handleDrop_reads_drag_index_witness :
  draggedItemId (handleDragStart 7 0 handleDragEnd).2 = Some 7
  ∧ handleDrop ["a"; "b"; "c"] (handleDragStart 7 0 handleDragEnd).1 2
    = (if decide (0%nat = 2%nat) then None
       else Some (Some <$> moved ["a"; "b"; "c"] 0 2 "a"), handleDragEnd).
Proof.
  apply (handleDrop_reads_drag_index ["a"; "b"; "c"] 7 0 2 "a" handleDragEnd);
    [reflexivity|simpl; lia].
Defined.

(** X9: what a drop does with a data transfer that is not an index of
    the list.  A text that is no number moves the first entry to the drop
    position.  An index past the end of the list, as the start of a drag
    in a longer list writes it, takes nothing out and inserts [undefined]
    at the drop position: the list grows by one. *)
Theorem handleDrop_foreign_data {T : Type} (l : list T) (data : string) (j : nat) :
  (j < length l)%nat →
  (parseInt data = NaN →
     ∃ x : T, l !! 0%nat = Some x
       ∧ (handleDrop l data j).1 = Some (Some <$> moved l 0 j x))
  ∧ (∀ (ident : Z) (i : nat) (st : DragState),
       (length l ≤ i)%nat → data = (handleDragStart ident i st).1 →
       ∃ r : list (option T),
         (handleDrop l data j).1 = Some r
         ∧ length r = S (length l) ∧ r !! j = Some None
         ∧ delete j r = Some <$> l).
Proof.
  intros Hj. split.
  - intros Hnan. destruct l as [|x l]; [simpl in Hj; lia|].
    exists x. split; [done|].
    unfold handleDrop. rewrite Hnan. cbn [strictEq fst]. f_equal.
    rewrite <- (handleReorder_in_range (x :: l) 0 j x) by done.
    unfold handleReorder. by rewrite !spliceStart_nat.
  - intros ident i st Hi ->.
    unfold handleDrop, handleDragStart. cbn [fst].
    rewrite parseInt_decimal, strictEq_of_Z, bool_decide_eq_false_2 by lia.
    rewrite handleReorder_past_end by lia.
    assert (Ht : length (Some <$> take j l) = j)
      by (rewrite length_fmap, length_take; lia).
    eexists; split; [reflexivity|]. split_and!.
    + rewrite length_app. cbn [length].
      rewrite Ht, length_fmap, length_drop. lia.
    + rewrite <- Ht at 3. by rewrite list_lookup_middle.
    + rewrite <- Ht at 1. by rewrite delete_middle, <- fmap_app, take_drop.
Qed.

Lemma handleDrop_foreign_data_witness :
  (parseInt "" = NaN →
     ∃ x : string, ["a"; "b"] !! 0%nat = Some x
       ∧ (handleDrop ["a"; "b"] "" 1).1 = Some (Some <$> moved ["a"; "b"] 0 1 x))
  ∧ (∀ (ident : Z) (i : nat) (st : DragState),
       (length ["a"; "b"] ≤ i)%nat → "" = (handleDragStart ident i st).1 →
       ∃ r : list (option string),
         (handleDrop ["a"; "b"] "" 1).1 = Some r
         ∧ length r = S (length ["a"; "b"]) ∧ r !! 1%nat = Some None
         ∧ delete 1%nat r = Some <$> ["a"; "b"]).
Proof.
  apply (handleDrop_foreign_data ["a"; "b"] "" 1). simpl; lia.
Defined.

End DragFacts.

(** *** Adding, removing and editing entries *)

Section ListFacts.
Import Prompt Elements.

Lemma filter_all {A : Type} (P : A → Prop) `{∀ x, Decision (P x)} (l : list A) :
  (∀ x, x ∈ l → P x) → filter P l = l.
Proof.
  induction l as [|a l IH]; intros Hl; [done|].
  rewrite filter_cons_True by (apply Hl; left).
  f_equal. apply IH. intros x Hx. apply Hl. by right.
Qed.

Lemma fmap_untouched {A : Type} (f : A → A) (l : list A) :
  (∀ x, x ∈ l → f x = x) → f <$> l = l.
Proof.
  induction l as [|a l IH]; intros Hl; [done|].
  rewrite fmap_cons, Hl by left. f_equal. apply IH. intros x Hx. apply Hl. by right.
Qed.

(** X10: an entry added under an identifier that no entry of the list
    has can be taken back: removing that identifier restores the list, and
    renaming it or giving it an image changes the new entry alone. *)
Theorem onAdd_fresh_identifier (now : Z) (placeholder newName : string)
    (newImage : option ImageFile) (prev : list Character) :
  (∀ c, c ∈ prev → id c ≠ now) →
  onRemove now (onAdd now placeholder prev) = prev
  ∧ (∃ given : string,
       onAdd now placeholder prev = prev ++ [mkCharacter now given None]
       ∧ onNameChange now newName (onAdd now placeholder prev)
         = prev ++ [mkCharacter now newName None]
       ∧ onImageUpload now newImage (onAdd now placeholder prev)
         = prev ++ [mkCharacter now given newImage]).
Proof.
  intros Hfresh. unfold onAdd, onRemove, onNameChange, onImageUpload. split.
  - rewrite filter_app, filter_all by done.
    rewrite filter_cons_False by (cbn; tauto). apply app_nil_r.
  - eexists. split; [reflexivity|].
    rewrite !fmap_app. cbn [fmap list_fmap id name image].
    rewrite !decide_True by done.
    rewrite !fmap_untouched; [done|intros x Hx; by rewrite decide_False by by apply Hfresh..].
Qed.

Lemma onAdd_fresh_identifier_witness :
  onRemove 1700000000000 (onAdd 1700000000000 "Character" (characters initialState))
  = characters initialState
  ∧ (∃ given : string,
       onAdd 1700000000000 "Character" (characters initialState)
       = characters initialState ++ [mkCharacter 1700000000000 given None]
       ∧ onNameChange 1700000000000 "enfant" (onAdd 1700000000000 "Character" (characters initialState))
         = characters initialState ++ [mkCharacter 1700000000000 "enfant" None]
       ∧ onImageUpload 1700000000000 None (onAdd 1700000000000 "Character" (characters initialState))
         = characters initialState ++ [mkCharacter 1700000000000 given None]).
Proof.
  apply (onAdd_fresh_identifier 1700000000000 "Character" "enfant" None (characters initialState)).
  intros c Hc. cbn in Hc.
  apply elem_of_cons in Hc as [->|Hc]; [done|].
  apply elem_of_cons in Hc as [->|Hc]; [done|].
  by apply elem_of_nil in Hc.
Defined.

(** The names of the clause are those of the entries with an image. *)
Lemma names_imaged (l : list Character) :
  names l = names (filter (λ c, image c ≠ None) l).
Proof.
  unfold names. do 2 f_equal. rewrite list_filter_filter.
  apply list_filter_iff. intros c. tauto.
Qed.

Lemma existsb_imaged (l : list Character) :
  existsb (λ c, bool_decide (image c ≠ None)) l
  = existsb (λ c, bool_decide (image c ≠ None)) (filter (λ c, image c ≠ None) l).
Proof.
  induction l as [|c l IH]; [done|]. rewrite filter_cons. cbn [existsb].
  destruct (decide (image c ≠ None)) as [Hc|Hc].
  - cbn [existsb]. by rewrite IH.
  - by rewrite bool_decide_eq_false_2, IH.
Qed.

(** The prompt reads the characters through those with an image only. *)
Lemma newPrompt_imaged (st : State) (l : list Character) :
  filter (λ c, image c ≠ None) l = filter (λ c, image c ≠ None) (characters st) →
  newPrompt (setCharacters l st) = newPrompt st.
Proof.
  intros Hl.
  assert (Hn : characterNames (setCharacters l st) = characterNames st).
  { unfold characterNames. cbn [setCharacters characters].
    by rewrite names_imaged, Hl, <- names_imaged. }
  assert (Hi : hasCharacterImage (setCharacters l st) = hasCharacterImage st).
  { unfold hasCharacterImage. cbn [setCharacters characters].
    by rewrite existsb_imaged, Hl, <- existsb_imaged. }
  unfold newPrompt, promptParts, integrationInstructions, characterIntegration.
  by rewrite Hn, Hi.
Qed.

(** X11: the prompt does not depend on the entries that have no image:
    adding an entry leaves it as it is, and so does removing or renaming
    entries that have no image. *)
Theorem prompt_ignores_imageless (st : State) (now ident : Z)
    (placeholder newName : string) :
  (∀ c, c ∈ characters st → id c = ident → image c = None) →
  newPrompt (setCharacters (onAdd now placeholder (characters st)) st) = newPrompt st
  ∧ newPrompt (setCharacters (onRemove ident (characters st)) st) = newPrompt st
  ∧ newPrompt (setCharacters (onNameChange ident newName (characters st)) st)
    = newPrompt st.
Proof.
  intros Hno. split_and!; apply newPrompt_imaged.
  - unfold onAdd. rewrite filter_app, filter_cons_False by (cbn; tauto).
    apply app_nil_r.
  - unfold onRemove. induction (characters st) as [|c l IH]; [done|].
    rewrite (filter_cons (λ c, id c ≠ ident)).
    destruct (decide (id c ≠ ident)) as [Hid|Hid%dec_stable].
    + rewrite !filter_cons, IH by (intros x Hx; apply Hno; by right). done.
    + rewrite IH by (intros x Hx; apply Hno; by right).
      rewrite filter_cons_False; [done|].
      rewrite (Hno c) by (done || left). tauto.
  - unfold onNameChange. induction (characters st) as [|c l IH]; [done|].
    rewrite fmap_cons, !filter_cons.
    rewrite IH by (intros x Hx; apply Hno; by right).
    destruct (decide (id c = ident)) as [Hid|Hid]; [|done].
    cbn [image]. rewrite (Hno c) by (done || left).
    by rewrite !decide_False by tauto.
Qed.

Lemma prompt_ignores_imageless_witness :
  newPrompt (setCharacters (onAdd 1700000000000 "Character" (characters initialState)) initialState)
  = newPrompt initialState
  ∧ newPrompt (setCharacters (onRemove 1 (characters initialState)) initialState)
    = newPrompt initialState
  ∧ newPrompt (setCharacters (onNameChange 1 "enfant" (characters initialState)) initialState)
    = newPrompt initialState.
Proof.
  apply (prompt_ignores_imageless initialState 1700000000000 1 "Character" "enfant").
  intros c Hc _. cbn in Hc.
  apply elem_of_cons in Hc as [->|Hc]; [done|].
  apply elem_of_cons in Hc as [->|Hc]; [done|].
  by apply elem_of_nil in Hc.
Defined.

End ListFacts.

(** ** The requests sent to the service *)

Section RequestFacts.
Import Prompt Generate Spec.

Lemma images_elem (l : list Character) (c : Character) (img : ImageFile) :
  c ∈ l → image c = Some img → img ∈ images l.
Proof.
  intros Hc Hi. unfold images. apply list_elem_of_omap. by exists c.
Qed.

Lemma existsb_images (l : list Character) :
  existsb (λ c, bool_decide (image c ≠ None)) l = true → images l ≠ [].
Proof.
  intros (c & Hc & Hi)%existsb_exists.
  apply list_elem_of_In in Hc. apply bool_decide_eq_true in Hi.
  destruct (image c) as [img|] eqn:E; [|done].
  intros Hnil. pose proof (images_elem l c img Hc E) as Hin.
  rewrite Hnil in Hin. by apply elem_of_nil in Hin.
Qed.

(** The request of a state whose prompt the effect has written. *)
Lemma generationRequest_promptEffect (st : State) :
  activeTab st = generate →
  generationRequest (promptEffect st)
  = mkRequest (newPrompt st)
      (match sceneLocationImage st with Some i => [i] | None => [] end
       ++ images (characters st) ++ images (additionalElements st))
      (Prompt.styleImage st) None.
Proof. intros Ht. unfold promptEffect. by rewrite Ht. Qed.

Lemma isGenerationDisabled_promptEffect (st : State) (genLoading : bool) :
  isGenerationDisabled (promptEffect st) genLoading = isGenerationDisabled st genLoading.
Proof. unfold promptEffect. by destruct (activeTab st). Qed.

(** X12: a click on Generate that is not ignored sends, in every
    request, the prompt the effect composed; that prompt is never sent
    bare: the scene description is not blank or at least one image goes
    with it; and every entry the integration clauses name has its image
    among those sent. *)
Theorem enabled_generation_request (st : State) (genLoading : bool)
    (numberOfImages : nat) (requests : list Request) :
  activeTab st = generate →
  handleGenerateClick (promptEffect st) genLoading numberOfImages = Some requests →
  genLoading = false
  ∧ length requests = numberOfImages
  ∧ ∀ r, r ∈ requests →
      prompt r = newPrompt st
      ∧ baseImage r = None
      ∧ (¬ blank (sceneDescription st) ∨ characterImages r ≠ [])
      ∧ (∀ c, c ∈ integrated (characters st) ++ integrated (additionalElements st) →
           ∃ img, image c = Some img ∧ img ∈ characterImages r).
Proof.
  intros Ht. unfold handleGenerateClick.
  rewrite isGenerationDisabled_promptEffect, generationRequest_promptEffect by done.
  destruct (isGenerationDisabled st genLoading) eqn:Hd; [done|]. intros [= <-].
  unfold isGenerationDisabled in Hd.
  apply orb_false_iff in Hd as [Hen%negb_false_iff ->].
  split; [done|]. split; [apply length_replicate|].
  intros r [-> _]%elem_of_replicate. cbn [prompt baseImage characterImages].
  split_and!; [done..| |].
  - apply orb_true_iff in Hen as [Hen|Hloc].
    apply orb_true_iff in Hen as [Hen|Hel].
    apply orb_true_iff in Hen as [Hdesc|Hch].
    + left. unfold hasSceneDescription in Hdesc.
      apply bool_decide_eq_true in Hdesc. by rewrite <- trim_empty_iff.
    + right. apply existsb_images in Hch.
      destruct (images (characters st)); [done|]. by destruct (sceneLocationImage st).
    + right. apply existsb_images in Hel.
      destruct (images (additionalElements st)); [done|].
      destruct (sceneLocationImage st), (images (characters st)); done.
    + right. unfold hasLocationImage in Hloc. apply bool_decide_eq_true in Hloc.
      by destruct (sceneLocationImage st).
  - intros c Hc. unfold integrated in Hc.
    apply elem_of_app in Hc as [Hc|Hc];
      apply list_elem_of_filter in Hc as [[[img Hi] _] Hc];
      exists img; (split; [done|]); apply elem_of_app; right; apply elem_of_app;
      [left|right]; by eapply images_elem.
Qed.

Lemma enabled_generation_request_witness :
  false = false
  ∧ length (replicate 2 (generationRequest (promptEffect (setSceneDescription "a beach" initialState)))) = 2%nat
  ∧ ∀ r, r ∈ replicate 2 (generationRequest (promptEffect (setSceneDescription "a beach" initialState))) →
      prompt r = newPrompt (setSceneDescription "a beach" initialState)
      ∧ baseImage r = None
      ∧ (¬ blank (sceneDescription (setSceneDescription "a beach" initialState))
         ∨ characterImages r ≠ [])
      ∧ (∀ c, c ∈ integrated (characters (setSceneDescription "a beach" initialState))
                ++ integrated (additionalElements (setSceneDescription "a beach" initialState)) →
           ∃ img, image c = Some img ∧ img ∈ characterImages r).
Proof.
  apply (enabled_generation_request (setSceneDescription "a beach" initialState) false 2);
    reflexivity.
Defined.





End RequestFacts.

(** ** The display of the results *)

Section DisplayFacts.
Import Geometry Display.

(** The longest side of a resized image. *)
Lemma resizeImage_onload_longest (imageUrl : string) (w h t : Z) :
  (0 < w)%Z → (0 < h)%Z → (0 < t)%Z →
  ∃ W H : Z,
    width (surface (resizeImage_onload imageUrl (of_Z t) w h)) = of_Z W
    ∧ height (surface (resizeImage_onload imageUrl (of_Z t) w h)) = of_Z H
    ∧ Z.max W H = t.
Proof.
  intros Hw Hh Ht.
  destruct (resizeImage_onload_fields imageUrl (of_Z t) w h) as (HW & HH & _).
  cbv zeta in HW, HH. rewrite HW, HH. clear HW HH.
  destruct (Z.ltb_spec h w) as [Hlt|Hge].
  - rewrite Math_round_of_Z.
    destruct (div_by_ratio t w h Hw Hh) as (x & -> & Hxq). cbn [Math_round].
    pose proof (round_quotient x (t * h) w Hw Hxq) as Hr. cbv zeta in Hr.
    exists t, (Qfloor (x + (1 # 2))). split; [done|]. split; [done|]. nia.
  - rewrite Math_round_of_Z.
    destruct (mul_by_ratio t w h Hh) as (x & -> & Hxq). cbn [Math_round].
    pose proof (round_quotient x (t * w) h Hh Hxq) as Hr. cbv zeta in Hr.
    exists (Qfloor (x + (1 # 2))), t. split; [done|]. split; [done|]. nia.
Qed.

(** X14: the 2K and 4K downloads.  When the image loads, the link
    clicked carries the encoding of a canvas whose longest side is 2560 or
    3840 pixels, whatever the size of the source; the data is JPEG exactly
    when the image is a JPEG data URL, and the file name ends in [.png]
    either way.  When the resize is rejected nothing is downloaded. *)
Theorem handleResizeAndDownload_link (toDataURL : Encoder) (image : string)
    (resolution : Resolution) (now : Z) (w h : Z) (hasContext : bool) :
  (0 < w)%Z → (0 < h)%Z →
  handleResizeAndDownload toDataURL image resolution now None hasContext = None
  ∧ handleResizeAndDownload toDataURL image resolution now (Some (w, h)) false = None
  ∧ ∃ (c : Canvas) (W H : Z),
      handleResizeAndDownload toDataURL image resolution now (Some (w, h)) true
      = Some (toDataURL c (if startsWith image "data:image/jpeg"
                           then "image/jpeg" else "image/png") (of_Z 1),
              ("generated-image-" +:+ Resolution_string resolution +:+ "-"
               +:+ History.decimal now) +:+ ".png")
      ∧ width c = of_Z W ∧ height c = of_Z H
      ∧ Z.max W H = targetSize resolution
      ∧ targetSize resolution ∈ [2560; 3840].
Proof.
  intros Hw Hh. split; [done|]. split; [done|].
  assert (Ht : (0 < targetSize resolution)%Z) by (by destruct resolution).
  destruct (resizeImage_onload_longest image w h _ Hw Hh Ht) as (W & H & HW & HH & Hmax).
  exists (surface (resizeImage_onload image (of_Z (targetSize resolution)) w h)), W, H.
  split_and!; [|done..|destruct resolution; set_solver].
  unfold handleResizeAndDownload, resizeImage, downloadImage.
  destruct (resizeImage_onload_fields image (of_Z (targetSize resolution)) w h)
    as (_ & _ & _ & -> & ->).
  done.
Qed.

Lemma handleResizeAndDownload_link_witness :
  handleResizeAndDownload (λ _ mime _, Spec.dataUrl mime "AAAA")
    "data:image/jpeg;base64,BBBB" r4k 1700000000000 None true = None
  ∧ handleResizeAndDownload (λ _ mime _, Spec.dataUrl mime "AAAA")
      "data:image/jpeg;base64,BBBB" r4k 1700000000000 (Some (1024, 768)) false = None
  ∧ ∃ (c : Canvas) (W H : Z),
      handleResizeAndDownload (λ _ mime _, Spec.dataUrl mime "AAAA")
        "data:image/jpeg;base64,BBBB" r4k 1700000000000 (Some (1024, 768)) true
      = Some ((λ _ mime _, Spec.dataUrl mime "AAAA") c
                (if startsWith "data:image/jpeg;base64,BBBB" "data:image/jpeg"
                 then "image/jpeg" else "image/png") (of_Z 1),
              ("generated-image-" +:+ Resolution_string r4k +:+ "-"
               +:+ History.decimal 1700000000000) +:+ ".png")
      ∧ width c = of_Z W ∧ height c = of_Z H
      ∧ Z.max W H = targetSize r4k
      ∧ targetSize r4k ∈ [2560; 3840].
Proof.
  apply (handleResizeAndDownload_link (λ _ mime _, Spec.dataUrl mime "AAAA")
           "data:image/jpeg;base64,BBBB" r4k 1700000000000 1024 768 true); lia.
Defined.

(** X15: the display renders exactly one of its four blocks: the spinner
    exactly while loading; else the error box exactly when the error is a
    message that is not empty; else the grid of all the images when there
    is one, and the empty state when there is none. *)
Theorem GeneratedImageDisplay_one_view (shown : list string) (isLoading : bool)
    (error : option string) :
  ∃ v : View,
    GeneratedImageDisplay shown isLoading error = [v]
    ∧ (v = LoadingSpinner ↔ isLoading = true)
    ∧ (∀ m, v = ErrorBox m ↔ isLoading = false ∧ error = Some m ∧ m ≠ "")
    ∧ (∀ g s, v = ImageGrid g s →
         s = shown ∧ shown ≠ [] ∧ g = gridClass (length shown)
         ∧ (error = None ∨ error = Some ""))
    ∧ (v = EmptyState → shown = [] ∧ (error = None ∨ error = Some "")).
Proof.
  unfold GeneratedImageDisplay.
  destruct isLoading; [eexists; split; [reflexivity|]; split_and!; try done;
                       [intros m; split; [done|by intros [? _]]]|].
  destruct error as [[|c e]|]; cbn [truthy negb andb default app];
    (destruct shown as [|x shown]; cbn [length Nat.ltb Nat.leb Nat.eqb app];
     eexists; (split; [reflexivity|]); split_and!; try done;
     try (intros m; split; [done|intros (_ & Hm & Hne); by simplify_eq]);
     try (intros g s [= <- <-]; split_and!; by eauto);
     try (intros _; split; by eauto)).
  - intros m; split; [by intros [= <-]|intros (_ & [= <-] & _); done].
  - intros m; split; [by intros [= <-]|intros (_ & [= <-] & _); done].
Qed.

End DisplayFacts.

(** ** The history over a session *)

Section SessionFacts.
Import History Session Spec.







(** *** The identifiers of the entries *)

Lemma decimal_inj (a b : Z) : decimal a = decimal b → a = b.
Proof.
  intros H. apply (f_equal Elements.parseInt) in H.
  rewrite !parseInt_decimal in H. by injection H.
Qed.

Lemma history_id_inj (type type' : Kind) (now now' : Z) :
  Kind_string type +:+ "-" +:+ decimal now = Kind_string type' +:+ "-" +:+ decimal now' →
  type = type' ∧ now = now'.
Proof.
  destruct type, type'; cbv [Kind_string String.append]; intros [= H]; try done;
    by apply decimal_inj in H.
Qed.

(** X17: the identifier of an entry tells its kind and the millisecond
    it was built in, and nothing else: two entries have the same identifier
    exactly when they were built with the same kind in the same
    millisecond, and deleting one of them by its identifier then deletes
    the other as well. *)
Theorem history_id_by_kind_and_time (toDataURL : Geometry.Encoder)
    (decoded decoded' : option (Z * Z)) (hasContext hasContext' : bool)
    (image image' prompt prompt' nowISO nowISO' : string)
    (type type' : Kind) (now now' : Z) (v v' : value) :
  handleAddToHistory toDataURL decoded hasContext image prompt type now nowISO [] = [v] →
  handleAddToHistory toDataURL decoded' hasContext' image' prompt' type' now' nowISO' []
  = [v'] →
  ∃ i i' : string,
    item_id v = Some (Str i) ∧ item_id v' = Some (Str i')
    ∧ (i = i' ↔ type = type' ∧ now = now')
    ∧ handleDeleteFromHistory i [v'; v]
      = Some (if decide (type = type' ∧ now = now') then [] else [v']).
Proof.
  unfold handleAddToHistory.
  destruct (Geometry.resizeImage toDataURL image _ _ _) as [r|]; [|done].
  destruct (Geometry.parseDataUrl r) as [f|]; [|done].
  destruct (Geometry.resizeImage toDataURL image' _ _ _) as [r'|]; [|done].
  destruct (Geometry.parseDataUrl r') as [f'|]; [|done].
  cbn [take MAX_HISTORY_ITEMS]. intros [= <-] [= <-].
  set (x := mkHistoryItem _ f prompt nowISO).
  set (x' := mkHistoryItem _ f' prompt' nowISO').
  exists (History.id x), (History.id x').
  split; [done|]. split; [done|].
  assert (Hiff : History.id x = History.id x' ↔ type = type' ∧ now = now').
  { split; [apply history_id_inj|by intros [-> ->]]. }
  split; [done|].
  change [HistoryItem_value x'; HistoryItem_value x] with (HistoryItem_value <$> [x'; x]).
  rewrite handleDeleteFromHistory_items, !filter_cons, filter_nil.
  rewrite (decide_False (P := History.id x ≠ History.id x)) by tauto.
  destruct (decide (type = type' ∧ now = now')) as [Heq|Hne].
  - rewrite decide_False; [done|]. apply Hiff in Heq. by intros [].
  - rewrite decide_True; [done|]. intros Heq. apply Hne, Hiff. done.
Qed.

Lemma history_id_by_kind_and_time_witness :
  let v := HistoryItem_value
             (mkHistoryItem "gen-1700000000000" (mkImageFile (Some "AAAA") "image/png")
                            "a beach" "2023-11-14T22:13:20.000Z") in
  let v' := HistoryItem_value
              (mkHistoryItem "gen-1700000000000" (mkImageFile (Some "AAAA") "image/png")
                             "a beach" "2023-11-14T22:13:20.000Z") in
  ∃ i i' : string,
    item_id v = Some (Str i) ∧ item_id v' = Some (Str i')
    ∧ (i = i' ↔ gen = gen ∧ 1700000000000 = 1700000000000)
    ∧ handleDeleteFromHistory i [v'; v]
      = Some (if decide (gen = gen ∧ 1700000000000 = 1700000000000) then [] else [v']).
Proof.
  intros v v'.
  apply (history_id_by_kind_and_time (λ _ mime _, dataUrl mime "AAAA")
           (Some (1024, 768)) (Some (1024, 768)) true true
           "data:image/png;base64,BBBB" "data:image/png;base64,CCCC"
           "a beach" "a beach" "2023-11-14T22:13:20.000Z" "2023-11-14T22:13:20.000Z"
           gen gen 1700000000000 1700000000000 v v'); reflexivity.
Defined.

(** *** Viewing an entry *)

Lemma lineTerminatorAt_first (c : ascii) (r : string) :
  Ascii.eqb c "010" = false → Ascii.eqb c "013" = false → Ascii.eqb c "226" = false →
  Geometry.lineTerminatorAt (String c r) = false.
Proof. destruct c as [[] [] [] [] [] [] [] []]; done. Qed.

Lemma lazyToSemicolon_plain (m tail : string) :
  DataUrl.occurs ";" m = false → DataUrl.occurs "010" m = false →
  DataUrl.occurs "013" m = false → DataUrl.occurs "226" m = false →
  Geometry.lazyToSemicolon (m +:+ String ";" tail) = Some m.
Proof.
  induction m as [|c m IH]; [done|]. cbn [DataUrl.occurs].
  intros [Hs H1]%orb_false_iff [Hlf H2]%orb_false_iff [Hcr H3]%orb_false_iff
         [He H4]%orb_false_iff.
  rewrite append_cons, lazyToSemicolon_cons, Hs.
  rewrite lineTerminatorAt_first by done. by rewrite IH.
Qed.

(** The data URL of a plain MIME type and a payload without a comma is
    parsed into these two. *)
Lemma parseDataUrl_dataUrl (m b : string) :
  DataUrl.occurs ";" m = false → DataUrl.occurs "," m = false →
  DataUrl.occurs "010" m = false → DataUrl.occurs "013" m = false →
  DataUrl.occurs "226" m = false → DataUrl.occurs "," b = false →
  Geometry.parseDataUrl (dataUrl m b) = Some (mkImageFile (Some b) m).
Proof.
  intros Hs Hc Hlf Hcr He Hb. unfold Geometry.parseDataUrl, dataUrl.
  assert (Hsrc : "data:" +:+ m +:+ ";base64," +:+ b
                 = ("data:" +:+ m +:+ ";base64") +:+ String "," b)
    by (by rewrite !append_assoc).
  rewrite Hsrc, split_app, split_none by
    (done || (rewrite !occurs_app, Hc; reflexivity)).
  cbn [hd lookup list_lookup].
  change ("data:" +:+ m +:+ ";base64")
    with (String "d" (String "a" (String "t" (String "a"
            (String ":" (m +:+ String ";" "base64")))))).
  cbn [Geometry.matchMime Ascii.eqb Bool.eqb]. by rewrite lazyToSemicolon_plain.
Qed.

(** X18: an entry shows the image it was built from.  When the encoder
    gives the resized image as a base64 data URL of a plain MIME type (no
    semicolon, comma, line break or byte E2 in the type, no comma in the
    payload), viewing the new entry opens exactly that URL. *)
Theorem view_of_added_entry (toDataURL : Geometry.Encoder)
    (decoded : option (Z * Z)) (hasContext : bool) (image prompt : string)
    (type : Kind) (now : Z) (nowISO : string) (prev : list value) (m b : string) :
  Geometry.resizeImage toDataURL image (of_Z HISTORY_IMAGE_SIZE) decoded hasContext
  = inl (dataUrl m b) →
  DataUrl.occurs ";" m = false → DataUrl.occurs "," m = false →
  DataUrl.occurs "010" m = false → DataUrl.occurs "013" m = false →
  DataUrl.occurs "226" m = false → DataUrl.occurs "," b = false →
  ∃ x : HistoryItem,
    handleAddToHistory toDataURL decoded hasContext image prompt type now nowISO prev
    = take 10 (HistoryItem_value x :: prev)
    ∧ History.image x = mkImageFile (Some b) m
    ∧ handleViewHistoryItem x = dataUrl m b.
Proof.
  intros Hr Hs Hc Hlf Hcr He Hb.
  pose proof (parseDataUrl_dataUrl m b Hs Hc Hlf Hcr He Hb) as Hp.
  eexists. split; [by apply (handleAddToHistory_success _ _ _ _ _ _ _ _ _ _ _ Hr Hp)|].
  done.
Qed.

Lemma view_of_added_entry_witness :
  ∃ x : HistoryItem,
    handleAddToHistory (λ _ mime _, dataUrl mime "AAAA") (Some (1024, 768)) true
      "data:image/png;base64,BBBB" "a beach" gen 1700000000000
      "2023-11-14T22:13:20.000Z" []
    = take 10 (HistoryItem_value x :: [])
    ∧ History.image x = mkImageFile (Some "AAAA") "image/png"
    ∧ handleViewHistoryItem x = dataUrl "image/png" "AAAA".
Proof.
  apply (view_of_added_entry (λ _ mime _, dataUrl mime "AAAA") (Some (1024, 768)) true
           "data:image/png;base64,BBBB" "a beach" gen 1700000000000
           "2023-11-14T22:13:20.000Z" [] "image/png" "AAAA"); reflexivity.
Defined.

End SessionFacts.

(** ** JSON: reading back what was written *)

Section JSONFacts.
Import History Session Spec.

Lemma length_append (a b : string) :
  String.length (a +:+ b) = (String.length a + String.length b)%nat.
Proof. induction a as [|c a IH]; [done|]. rewrite append_cons. cbn. by rewrite IH. Qed.

Lemma append_empty_r (s : string) : s +:+ EmptyString = s.
Proof. induction s as [|c s IH]; [done|]. by rewrite append_cons, IH. Qed.

Lemma default_text (d t : string) : default d (Some t) = t.
Proof. reflexivity. Qed.

Lemma join_cons (sep a : string) (l : list string) :
  l ≠ [] → join sep (a :: l) = a +:+ sep +:+ join sep l.
Proof. by destruct l. Qed.

(** An escaped character is read back as the character. *)
Lemma parseStringBody_escape (c : ascii) (t : string) :
  parseStringBody (escape c +:+ t)
  = match parseStringBody t with
    | Some (u, rest) => Some (String c u, rest)
    | None => None
    end.
Proof. destruct c as [[] [] [] [] [] [] [] []]; reflexivity. Qed.

Lemma parseStringBody_quoteBody (s rest : string) :
  parseStringBody (quoteBody s +:+ String "034" rest) = Some (s, rest).
Proof.
  induction s as [|c s IH]; [done|].
  cbn [quoteBody]. by rewrite append_assoc, parseStringBody_escape, IH.
Qed.

Lemma quote_append (s r : string) :
  quote s +:+ r = String "034" (quoteBody s +:+ String "034" r).
Proof.
  unfold quote, dq. rewrite !append_cons, !append_assoc.
  by rewrite !append_cons.
Qed.


(** The reader on its first character. *)
Lemma parseValue_string (f : nat) (s : string) :
  parseValue (S f) (String "034" s)
  = match parseStringBody s with
    | Some (t, r) => Some (Str t, r)
    | None => None
    end.
Proof. reflexivity. Qed.

Lemma parseValue_object (f : nat) (s : string) :
  parseValue (S f) (String "{" (String "034" s))
  = match parseMembers f (String "034" s) with
    | Some (ms, r) => Some (Obj ms, r)
    | None => None
    end.
Proof. reflexivity. Qed.

Lemma parseMembers_member (f : nat) (k s : string) :
  parseMembers (S f) (quote k +:+ String ":" s)
  = match parseValue f s with
    | Some (v, r3) =>
        match skipWs r3 with
        | String "," r4 =>
            match parseMembers f r4 with
            | Some (ms, r5) => Some (define k v ms, r5)
            | None => None
            end
        | String "}" r4 => Some ([(k, v)], r4)
        | _ => None
        end
    | None => None
    end.
Proof.
  rewrite quote_append.
  change (parseMembers (S f) (String "034" (quoteBody k +:+ String "034" (String ":" s))))
    with (match parseStringBody (quoteBody k +:+ String "034" (String ":" s)) with
          | Some (k, r1) =>
              match skipWs r1 with
              | String ":" r2 =>
                  match parseValue f r2 with
                  | Some (v, r3) =>
                      match skipWs r3 with
                      | String "," r4 =>
                          match parseMembers f r4 with
                          | Some (ms, r5) => Some (define k v ms, r5)
                          | None => None
                          end
                      | String "}" r4 => Some ([(k, v)], r4)
                      | _ => None
                      end
                  | None => None
                  end
              | _ => None
              end
          | None => None
          end).
  by rewrite parseStringBody_quoteBody.
Qed.

Lemma parseElements_element (f : nat) (s : string) :
  parseElements (S f) s
  = match parseValue f s with
    | Some (v, r) =>
        match skipWs r with
        | String "," r' =>
            match parseElements f r' with
            | Some (vs, r'') => Some (v :: vs, r'')
            | None => None
            end
        | String "]" r' => Some ([v], r')
        | _ => None
        end
    | None => None
    end.
Proof. reflexivity. Qed.

(** A string is read back from its quoted text. *)
Lemma readsBack_Str (s : string) : readsBack 1 (Str s).
Proof.
  intros [|f] r Hf; [lia|].
  change (default "null" (JSON_stringify (Str s))) with (quote s).
  by rewrite quote_append, parseValue_string, parseStringBody_quoteBody.
Qed.

Lemma readsBack_mono (F F' : nat) (v : value) :
  (F ≤ F')%nat → readsBack F v → readsBack F' v.
Proof. intros HF Hv f r Hf. apply Hv. lia. Qed.


(** *** Objects *)

Lemma lookupLast_fresh (k : string) (ms : list (string * value)) :
  k ∉ ms.*1 → lookupLast k ms = None.
Proof.
  induction ms as [|[k' x] ms IH]; [done|]. cbn [fmap list_fmap fst lookupLast].
  intros [Hne Hk]%not_elem_of_cons. rewrite IH by done.
  destruct (String.eqb_spec k' k); [by subst|done].
Qed.

Lemma define_fresh (k : string) (v : value) (ms : list (string * value)) :
  k ∉ ms.*1 → define k v ms = (k, v) :: ms.
Proof.
  intros Hk. unfold define. rewrite lookupLast_fresh by done. cbn [default].
  f_equal. apply filter_all. intros [k' x] Hin Heq. cbn in Heq. subst k'.
  apply Hk. apply list_elem_of_fmap. by exists (k, x).
Qed.

(** The text of a member, and of the members of an object. *)
Lemma stringify_members (ms : list (string * value)) :
  Forall (λ m, is_Some (JSON_stringify m.2)) ms →
  JSON_stringify (Obj ms)
  = Some ("{" +:+ join "," ((λ m, quote m.1 +:+ ":" +:+ default "null" (JSON_stringify m.2))
                            <$> ms) +:+ "}").
Proof.
  intros Hms.
  change (JSON_stringify (Obj ms))
    with (Some ("{" +:+ join ","
              (omap (λ m, match m with
                          | (k, x) => (λ t, quote k +:+ ":" +:+ t) <$> JSON_stringify x
                          end) ms)
            +:+ "}")).
  assert (Hom : omap (λ m, match m with
                           | (k, x) => (λ t, quote k +:+ ":" +:+ t) <$> JSON_stringify x
                           end) ms
                = (λ m, quote m.1 +:+ ":" +:+ default "null" (JSON_stringify m.2)) <$> ms).
  { induction Hms as [|[k x] ms [t Ht] _ IH]; [done|].
    cbn [omap list_omap fmap list_fmap fst snd]. cbn [snd] in Ht. rewrite Ht.
    cbn [fmap option_fmap option_map default]. by rewrite IH. }
  by rewrite Hom.
Qed.

Lemma parseMembers_list (F : nat) (ms : list (string * value)) :
  Forall (λ m, readsBack F m.2) ms → NoDup ms.*1 → ms ≠ [] →
  ∀ (f : nat) (r : string), (F + length ms ≤ f)%nat →
    parseMembers f
      (join "," ((λ m, quote m.1 +:+ ":" +:+ default "null" (JSON_stringify m.2)) <$> ms)
       +:+ String "}" r)
    = Some (ms, r).
Proof.
  intros Hms. induction Hms as [|[k x] ms Hx Hms IH]; [done|].
  intros Hnd _ f r Hf. cbn [fmap list_fmap fst snd length] in *.
  apply NoDup_cons in Hnd as [Hk Hnd].
  destruct f as [|f]; [lia|].
  destruct ms as [|m' ms].
  - cbn [fmap list_fmap join snd].
    rewrite !append_assoc, append_cons.
    change (EmptyString +:+ ?s) with s.
    rewrite parseMembers_member, (Hx f (String "}" r)) by lia. done.
  - specialize (IH Hnd ltac:(done) f r ltac:(cbn [length] in *; lia)).
    rewrite join_cons by done.
    rewrite !append_assoc, append_cons.
    change (EmptyString +:+ ?s) with s.
    rewrite (append_cons "," EmptyString).
    change (EmptyString +:+ ?s) with s.
    rewrite parseMembers_member.
    rewrite (Hx f) by lia. cbn [skipWs]. rewrite IH.
    by rewrite define_fresh.
Qed.


Lemma members_head (ms : list (string * value)) (s : string) :
  ms ≠ [] →
  ∃ tail,
    join "," ((λ m, quote m.1 +:+ ":" +:+ default "null" (JSON_stringify m.2)) <$> ms)
    +:+ s = String "034" tail.
Proof.
  destruct ms as [|[k x] ms]; [done|]. intros _. cbn [fmap list_fmap fst snd].
  destruct ms as [|m' ms].
  - cbn [fmap list_fmap join]. rewrite !append_assoc, quote_append. eauto.
  - rewrite join_cons by done. rewrite !append_assoc, quote_append. eauto.
Qed.

(** An object whose keys are distinct and whose values are read back is
    read back. *)
Lemma readsBack_Obj (F : nat) (ms : list (string * value)) :
  Forall (λ m, readsBack F m.2) ms →
  Forall (λ m, is_Some (JSON_stringify m.2)) ms →
  NoDup ms.*1 → ms ≠ [] →
  readsBack (F + length ms + 1) (Obj ms).
Proof.
  intros Hms Hsome Hnd Hne f r Hf.
  destruct f as [|f]; [lia|].
  rewrite stringify_members by done. rewrite default_text.
  rewrite !append_assoc, append_cons.
  change (EmptyString +:+ ?s) with s.
  rewrite (append_cons "}" EmptyString).
  change (EmptyString +:+ ?s) with s.
  destruct (members_head ms (String "}" r) Hne) as [tail Htail].
  rewrite Htail, parseValue_object, <- Htail.
  by rewrite (parseMembers_list F) by (done || lia).
Qed.

(** *** Arrays *)

Lemma stringify_elements (vs : list value) :
  JSON_stringify (Arr vs)
  = Some ("[" +:+ join "," ((λ x, default "null" (JSON_stringify x)) <$> vs) +:+ "]").
Proof. reflexivity. Qed.

Lemma parseElements_list (F : nat) (vs : list value) :
  Forall (readsBack F) vs → vs ≠ [] →
  ∀ (f : nat) (r : string), (F + length vs ≤ f)%nat →
    parseElements f
      (join "," ((λ x, default "null" (JSON_stringify x)) <$> vs) +:+ String "]" r)
    = Some (vs, r).
Proof.
  intros Hvs. induction Hvs as [|x vs Hx Hvs IH]; [done|].
  intros _ f r Hf. cbn [fmap list_fmap length] in *.
  destruct f as [|f]; [lia|].
  destruct vs as [|x' vs].
  - cbn [fmap list_fmap join].
    rewrite parseElements_element, (Hx f (String "]" r)) by lia. done.
  - specialize (IH ltac:(done) f r ltac:(cbn [length] in *; lia)).
    rewrite join_cons by done.
    rewrite !append_assoc, (append_cons "," EmptyString).
    change (EmptyString +:+ ?s) with s.
    rewrite parseElements_element, (Hx f) by lia. cbn [skipWs]. by rewrite IH.
Qed.

(** No value starts with a closing bracket. *)
Lemma parseValue_not_close (f : nat) (s r : string) (res : value * string) :
  parseValue f s = Some res → skipWs s ≠ String "]" r.
Proof.
  destruct f as [|f]; [done|]. intros H Hs.
  simpl in H. rewrite Hs in H. simpl in H. done.
Qed.


Lemma parseValue_array (f : nat) (s : string) :
  parseValue (S f) (String "[" s)
  = match skipWs s with
    | String "]" r => Some (Arr [], r)
    | _ =>
        match parseElements f s with
        | Some (vs, r) => Some (Arr vs, r)
        | None => None
        end
    end.
Proof. reflexivity. Qed.

(** An array whose elements are read back is read back. *)
Lemma readsBack_Arr (F : nat) (vs : list value) :
  Forall (readsBack F) vs → vs ≠ [] →
  readsBack (F + length vs + 1) (Arr vs).
Proof.
  intros Hvs Hne f r Hf.
  destruct f as [|f]; [lia|].
  rewrite stringify_elements, default_text.
  rewrite !append_assoc, append_cons.
  change (EmptyString +:+ ?s) with s.
  rewrite (append_cons "]" EmptyString).
  change (EmptyString +:+ ?s) with s.
  rewrite parseValue_array.
  pose proof (parseElements_list F vs Hvs Hne f r ltac:(lia)) as He.
  rewrite He.
  destruct f as [|f]; [done|]. rewrite parseElements_element in He.
  destruct (parseValue f _) as [res|] eqn:Hv; [|done].
  pose proof (λ r', parseValue_not_close _ _ r' _ Hv) as Hclose.
  destruct (skipWs _) as [|c rr]; [done|].
  destruct c as [[] [] [] [] [] [] [] []]; try done.
  by destruct (Hclose rr).
Qed.

(** *** The entries of the history *)

Lemma readsBack_ImageFile (f : ImageFile) :
  is_Some (base64 f) → readsBack 4 (ImageFile_value f).
Proof.
  intros [b Hb]. unfold ImageFile_value. rewrite Hb.
  apply (readsBack_Obj 1 [("base64", Str b); ("mimeType", Str (mimeType f))]).
  - repeat constructor; apply readsBack_Str.
  - repeat constructor; by eexists.
  - apply (bool_decide_unpack _). by vm_compute.
  - done.
Qed.

Lemma stringify_HistoryItem (x : HistoryItem) :
  is_Some (JSON_stringify (HistoryItem_value x))
  ∧ is_Some (JSON_stringify (ImageFile_value (image x))).
Proof. split; by eexists. Qed.

Lemma readsBack_HistoryItem (x : HistoryItem) :
  is_Some (base64 (image x)) → readsBack 9 (HistoryItem_value x).
Proof.
  intros Hb. unfold HistoryItem_value.
  apply (readsBack_Obj 4 [("id", Str (History.id x)); ("image", ImageFile_value (image x));
                          ("prompt", Str (prompt x)); ("createdAt", Str (createdAt x))]).
  - repeat constructor;
      (by apply readsBack_ImageFile)
      || (apply (readsBack_mono 1); [lia|apply readsBack_Str]).
  - repeat constructor; by eexists.
  - apply (bool_decide_unpack _). by vm_compute.
  - done.
Qed.

Lemma length_HistoryItem (x : HistoryItem) :
  (3 ≤ String.length (default "null" (JSON_stringify (HistoryItem_value x))))%nat.
Proof.
  unfold HistoryItem_value.
  rewrite stringify_members by (repeat constructor; by eexists).
  rewrite default_text, !length_append.
  edestruct (members_head [("id", Str (History.id x)); ("image", ImageFile_value (image x));
                           ("prompt", Str (prompt x)); ("createdAt", Str (createdAt x))]
               EmptyString) as [tail Htail]; [done|].
  apply (f_equal String.length) in Htail. rewrite length_append in Htail.
  cbn [String.length] in *. lia.
Qed.

Lemma length_join (sep : string) (k : nat) (l : list string) :
  Forall (λ t, (k ≤ String.length t)%nat) l →
  (k * length l ≤ String.length (join sep l))%nat.
Proof.
  induction 1 as [|t l Ht Hl IH]; [cbn; lia|].
  destruct l as [|t' l]; [cbn in *; lia|].
  rewrite join_cons by done. rewrite !length_append. cbn [length] in *. lia.
Qed.

(** The text [JSON.stringify] writes for a history of entries that have
    a payload is parsed into that history. *)
Lemma JSON_parse_history (items : list HistoryItem) (text : string) :
  items ≠ [] → (∀ x, x ∈ items → is_Some (base64 (image x))) →
  JSON_stringify (Arr (HistoryItem_value <$> items)) = Some text →
  JSON_parse text = Some (Arr (HistoryItem_value <$> items)).
Proof.
  intros Hne Hb Ht.
  assert (Hrb : readsBack (9 + length (HistoryItem_value <$> items) + 1)
                          (Arr (HistoryItem_value <$> items))).
  { apply readsBack_Arr; [|by destruct items].
    apply Forall_fmap, Forall_forall. intros x Hx. by apply readsBack_HistoryItem, Hb. }
  assert (Hlen : (3 * length items + 2 ≤ String.length text)%nat).
  { rewrite stringify_elements in Ht. injection Ht as <-.
    rewrite !length_append. cbn [String.length].
    pose proof (length_join "," 3
                  ((λ x, default "null" (JSON_stringify x)) <$> (HistoryItem_value <$> items)))
      as Hj.
    rewrite !length_fmap in Hj.
    assert (Hall : Forall (λ t, (3 ≤ String.length t)%nat)
                     ((λ x, default "null" (JSON_stringify x)) <$> (HistoryItem_value <$> items))).
    { apply Forall_fmap, Forall_fmap, Forall_forall. intros x _. apply length_HistoryItem. }
    specialize (Hj Hall). lia. }
  unfold JSON_parse.
  specialize (Hrb (2 * String.length text + 2)%nat EmptyString).
  rewrite Ht, default_text, append_empty_r in Hrb.
  rewrite Hrb; [done|]. rewrite length_fmap.
  destruct items; [done|]. cbn [length] in *. lia.
Qed.

(** X19: the history survives a reload.  When the entries have a payload
    and are at most ten, what the save effect stores is read by the next
    mount as the same history, and the mount leaves the storage as it
    found it. *)
Theorem history_persists (items : list HistoryItem) (ls : localStorage) :
  (length items ≤ 10)%nat →
  (∀ x, x ∈ items → is_Some (base64 (image x))) →
  mount (saveHistoryEffect (HistoryItem_value <$> items) ls)
  = (saveHistoryEffect (HistoryItem_value <$> items) ls, HistoryItem_value <$> items).
Proof.
  intros Hlen Hb. destruct items as [|x items].
  - cbn [fmap list_fmap]. rewrite saveHistoryEffect_empty.
    unfold mount, loadHistoryEffect. rewrite lookup_delete_eq.
    by rewrite saveHistoryEffect_empty, delete_delete_eq.
  - set (vs := HistoryItem_value <$> x :: items).
    destruct (JSON_stringify (Arr vs)) as [text|] eqn:Ht; [|done].
    pose proof (JSON_parse_history (x :: items) text ltac:(done) Hb Ht) as Hp.
    assert (Hs : saveHistoryEffect vs ls = <[generationHistory := text]> ls).
    { unfold saveHistoryEffect. rewrite bool_decide_eq_true_2 by (cbn; lia).
      by rewrite Ht. }
    rewrite Hs. unfold mount, loadHistoryEffect.
    rewrite lookup_insert_eq, (JSON_parse_truthy _ _ Hp), Hp.
    rewrite take_ge by (unfold vs, MAX_HISTORY_ITEMS; rewrite length_fmap; lia).
    rewrite saveHistoryEffect_empty, delete_insert_eq.
    fold vs. f_equal. unfold saveHistoryEffect.
    rewrite bool_decide_eq_true_2 by (cbn; lia).
    by rewrite Ht, insert_delete_eq.
Qed.

Lemma history_persists_witness :
  let items := [mkHistoryItem "edit-1700000000000"
                  (mkImageFile (Some "AAAA") "image/png")
                  "make it night" "2023-11-14T22:13:20.000Z"] in
  mount (saveHistoryEffect (HistoryItem_value <$> items) ∅)
  = (saveHistoryEffect (HistoryItem_value <$> items) ∅, HistoryItem_value <$> items).
Proof.
  intros items. apply (history_persists items ∅); [simpl; lia|].
  intros x ->%list_elem_of_singleton. by eexists.
Defined.

End JSONFacts.

(** ** The items of a list *)

Section ItemFacts.
Import Geometry DataUrl Elements Spec.

(** X20: the preview of an upload.  When the reader gives a base64 data
    URL of a plain MIME type (no semicolon, comma, line break or byte E2 in
    the type, no comma in the payload), the upload hands that type and
    payload to [onImageUpload], and the preview of the stored image loads
    exactly the URL that was read. *)
Theorem handleFileChange_preview (m b : string) :
  occurs ";" m = false → occurs "," m = false →
  occurs "010" m = false → occurs "013" m = false →
  occurs "226" m = false → occurs "," b = false →
  handleFileChange (Some (Some (dataUrl m b))) = Some (Some (mkImageFile (Some b) m))
  ∧ imageSrc (mkImageFile (Some b) m) = dataUrl m b.
Proof.
  intros Hs Hc Hlf Hcr He Hb. unfold handleFileChange.
  by rewrite parseDataUrl_dataUrl.
Qed.

Lemma handleFileChange_preview_witness :
  handleFileChange (Some (Some (dataUrl "image/jpeg" "/9j/4AAQSkZJRg==")))
  = Some (Some (mkImageFile (Some "/9j/4AAQSkZJRg==") "image/jpeg"))
  ∧ imageSrc (mkImageFile (Some "/9j/4AAQSkZJRg==") "image/jpeg")
    = dataUrl "image/jpeg" "/9j/4AAQSkZJRg==".
Proof.
  apply (handleFileChange_preview "image/jpeg" "/9j/4AAQSkZJRg=="); reflexivity.
Defined.

Lemma orEmpty_id (s : string) : orEmpty s = s.
Proof. by destruct s. Qed.

Lemma commitName_eq (elem : Character) (localName : string) :
  commitName elem localName
  = if decide (name elem ≠ localName) then Some (id elem, localName) else None.
Proof. unfold commitName. by rewrite !orEmpty_id. Qed.

(** X21: committing a name brings the list in line with the text of the
    field, whether or not [onNameChange] is called: the entry at the
    position of the item then has that text as its name, with the
    identifier and the image it had; and a second commit calls nothing. *)
Theorem commitName_syncs (elem : Character) (localName : string)
    (prev : list Character) (i : nat) :
  prev !! i = Some elem →
  ∃ c : Character,
    match commitName elem localName with
    | Some (ident, newName) => onNameChange ident newName prev
    | None => prev
    end !! i = Some c
    ∧ name c = localName ∧ id c = id elem ∧ image c = image elem
    ∧ commitName c localName = None.
Proof.
  intros Hi. rewrite commitName_eq.
  destruct (decide (name elem ≠ localName)) as [Hne|Heq%dec_stable].
  - exists (mkCharacter (id elem) localName (image elem)).
    rewrite commitName_eq.
    unfold onNameChange. rewrite list_lookup_fmap, Hi. cbn [fmap option_fmap option_map].
    rewrite decide_True by done. cbn [name id image]. split_and!; [done..|].
    by rewrite decide_False by (intros H; by apply H).
  - exists elem. rewrite commitName_eq. split_and!; [done..|].
    by rewrite decide_False by (intros H; by apply H).
Qed.

Lemma commitName_syncs_witness :
  ∃ c : Character,
    match commitName (mkCharacter 2 "femme" None) "Amina" with
    | Some (ident, newName) =>
        onNameChange ident newName [mkCharacter 1 "homme" None; mkCharacter 2 "femme" None]
    | None => [mkCharacter 1 "homme" None; mkCharacter 2 "femme" None]
    end !! 1%nat = Some c
    ∧ name c = "Amina" ∧ id c = id (mkCharacter 2 "femme" None)
    ∧ image c = image (mkCharacter 2 "femme" None)
    ∧ commitName c "Amina" = None.
Proof.
  apply (commitName_syncs (mkCharacter 2 "femme" None) "Amina"
           [mkCharacter 1 "homme" None; mkCharacter 2 "femme" None] 1).
  reflexivity.
Defined.

(** X22: during a drag the item that is dragged is never marked as the
    place of the drop: from the start of the drag, with no mark left from
    before, whatever items the pointer enters and leaves, the dragged item
    stays the same and the mark is on another item or on none. *)
Theorem dragged_item_never_marked (ident : Z) (index : nat) (events : list DragEvent) :
  let st := foldl handleDragEvent (handleDragStart ident index handleDragEnd).2 events in
  draggedItemId st = Some ident ∧ dragOverItemId st ≠ Some ident.
Proof.
  cbv zeta. cbn [handleDragStart snd handleDragEnd dragOverItemId].
  set (st0 := mkDragState (Some ident) None).
  assert (H0 : draggedItemId st0 = Some ident ∧ dragOverItemId st0 ≠ Some ident) by done.
  generalize dependent st0. induction events as [|e events IH]; intros st0 H0; [done|].
  cbn [foldl]. apply IH. destruct H0 as [Hd Ho], e as [j|]; cbn [handleDragEvent].
  - unfold handleDragEnter. rewrite Hd.
    destruct (decide (Some ident = Some j)) as [Heq|Hne]; [done|].
    cbn [draggedItemId dragOverItemId]. split; [done|]. congruence.
  - unfold handleDragLeave. cbn [draggedItemId dragOverItemId]. by split.
Qed.

End ItemFacts.

(** ** Images that are very thin or very flat *)

Section ThinImages.
Import Geometry History Spec.

(** A side that the resize rounds down to nothing. *)
Lemma resizeImage_onload_empty (imageUrl : string) (w h t : Z) :
  (0 < w)%Z → (0 < h)%Z → (0 < t)%Z →
  (2 * t * w < h ∨ 2 * t * h < w)%Z →
  width (surface (resizeImage_onload imageUrl (of_Z t) w h)) = of_Z 0
  ∨ height (surface (resizeImage_onload imageUrl (of_Z t) w h)) = of_Z 0.
Proof.
  intros Hw Hh Ht Hthin.
  destruct (resizeImage_onload_fields imageUrl (of_Z t) w h) as (HW & HH & _).
  cbv zeta in HW, HH. rewrite HW, HH. clear HW HH.
  destruct (Z.ltb_spec h w) as [Hlt|Hge].
  - right. destruct (div_by_ratio t w h Hw Hh) as (x & -> & Hxq). cbn [Math_round].
    pose proof (round_quotient x (t * h) w Hw Hxq) as Hr. cbv zeta in Hr.
    f_equal. nia.
  - left. destruct (mul_by_ratio t w h Hh) as (x & -> & Hxq). cbn [Math_round].
    pose proof (round_quotient x (t * w) h Hh Hxq) as Hr. cbv zeta in Hr.
    f_equal. nia.
Qed.

(** X23: an image more than 1024 times as high as it is wide, or as wide
    as it is high, is resized for the history to a canvas with a side of 0
    pixels.  With an encoder that, as browsers do, writes a canvas without
    pixels as [data:,], the resize still resolves, [parseDataUrl] raises
    its error, and the image is not added to the history. *)
Theorem thin_image_not_recorded (toDataURL : Encoder) (image prompt : string)
    (type : Kind) (now : Z) (nowISO : string) (prev : list value) (w h : Z) :
  (0 < w)%Z → (0 < h)%Z →
  (∀ c mime quality,
     width c = of_Z 0 ∨ height c = of_Z 0 → toDataURL c mime quality = "data:,") →
  (1024 * w < h ∨ 1024 * h < w)%Z →
  resizeImage toDataURL image (of_Z HISTORY_IMAGE_SIZE) (Some (w, h)) true = inl "data:,"
  ∧ parseDataUrl "data:," = None
  ∧ handleAddToHistory toDataURL (Some (w, h)) true image prompt type now nowISO prev
    = prev.
Proof.
  intros Hw Hh Henc Hthin.
  assert (Hr : resizeImage toDataURL image (of_Z HISTORY_IMAGE_SIZE) (Some (w, h)) true
               = inl "data:,").
  { unfold resizeImage. f_equal. apply Henc.
    apply resizeImage_onload_empty; unfold HISTORY_IMAGE_SIZE; lia. }
  split; [done|]. split; [done|].
  unfold handleAddToHistory. by rewrite Hr.
Qed.

Lemma thin_image_not_recorded_witness :
  resizeImage (λ _ _ _, "data:,") "data:image/png;base64,BBBB" (of_Z HISTORY_IMAGE_SIZE)
    (Some (1, 2000)) true = inl "data:,"
  ∧ parseDataUrl "data:," = None
  ∧ handleAddToHistory (λ _ _ _, "data:,") (Some (1, 2000)) true
      "data:image/png;base64,BBBB" "a tower" gen 1700000000000
      "2023-11-14T22:13:20.000Z" []
    = [].
Proof.
  apply (thin_image_not_recorded (λ _ _ _, "data:,") "data:image/png;base64,BBBB" "a tower"
           gen 1700000000000 "2023-11-14T22:13:20.000Z" [] 1 2000);
    [lia|lia|reflexivity|lia].
Defined.

End ThinImages.

(** ** Replacing an image *)

Section ImageContent.
Import Prompt Elements.

Lemma onImageUpload_names (ident : Z) (newImage : ImageFile) (l : list Character) :
  (∀ c, c ∈ l → id c = ident → is_Some (image c)) →
  (λ c, "(" +:+ trim (name c) +:+ ")")
    <$> filter (λ c, image c ≠ None ∧ trim (name c) ≠ "")
          (onImageUpload ident (Some newImage) l)
  = (λ c, "(" +:+ trim (name c) +:+ ")")
      <$> filter (λ c, image c ≠ None ∧ trim (name c) ≠ "") l
  ∧ existsb (λ c, bool_decide (image c ≠ None)) (onImageUpload ident (Some newImage) l)
    = existsb (λ c, bool_decide (image c ≠ None)) l.
Proof.
  unfold onImageUpload. induction l as [|c l IH]; intros Hhas; [done|].
  destruct IH as [IHn IHi]; [intros x Hx; apply Hhas; by right|].
  rewrite fmap_cons, !filter_cons. cbn [existsb]. rewrite IHi.
  destruct (decide (id c = ident)) as [Hid|Hid].
  - destruct (Hhas c ltac:(left) Hid) as [img Himg]. cbn [image name].
    rewrite Himg. split; [|done].
    destruct (decide (trim (name c) = "")) as [Ht|Ht].
    + by rewrite !decide_False by (intros [_ H]; by apply H).
    + by rewrite !decide_True, !fmap_cons, IHn by done.
  - split; [|done].
    destruct (decide (image c ≠ None ∧ trim (name c) ≠ "")); [|done].
    by rewrite !fmap_cons, IHn.
Qed.

(** X24: the prompt does not depend on what the images show: giving
    another image to entries that have one (as the image editor does when
    it applies a padding) leaves the prompt as it is. *)
Theorem prompt_ignores_image_content (st : State) (ident : Z) (newImage : ImageFile) :
  (∀ c, c ∈ characters st → id c = ident → is_Some (image c)) →
  newPrompt (setCharacters (onImageUpload ident (Some newImage) (characters st)) st)
  = newPrompt st.
Proof.
  intros Hhas.
  destruct (onImageUpload_names ident newImage (characters st) Hhas) as [Hn Hi].
  assert (Hnames : characterNames
                     (setCharacters (onImageUpload ident (Some newImage) (characters st)) st)
                   = characterNames st).
  { unfold characterNames, names. cbn [setCharacters characters]. by rewrite Hn. }
  assert (Himg : hasCharacterImage
                   (setCharacters (onImageUpload ident (Some newImage) (characters st)) st)
                 = hasCharacterImage st).
  { unfold hasCharacterImage. cbn [setCharacters characters]. by rewrite Hi. }
  unfold newPrompt, promptParts, integrationInstructions, characterIntegration.
  by rewrite Hnames, Himg.
Qed.

Lemma prompt_ignores_image_content_witness :
  let st := setCharacters [mkCharacter 1 "homme" (Some (mkImageFile (Some "AAAA") "image/jpeg"));
                           mkCharacter 2 "femme" None] initialState in
  newPrompt (setCharacters
               (onImageUpload 1 (Some (mkImageFile (Some "BBBB") "image/png")) (characters st))
               st)
  = newPrompt st.
Proof.
  intros st.
  apply (prompt_ignores_image_content st 1 (mkImageFile (Some "BBBB") "image/png")).
  intros c Hc Hid. cbn in Hc.
  apply elem_of_cons in Hc as [->|Hc]; [by eexists|].
  apply elem_of_cons in Hc as [->|Hc]; [done|].
  by apply elem_of_nil in Hc.
Defined.

End ImageContent.

(** ** The parts of the prompt *)

Section PromptParts.
Import Prompt.

Lemma filter_truthy (l : list string) :
  Forall (λ p, truthy p = true) l → List.filter truthy l = l.
Proof.
  induction 1 as [|p l Hp _ IH]; [done|]. cbn [List.filter]. by rewrite Hp, IH.
Qed.

Lemma startsWith_append (p s : string) : startsWith (p +:+ s) p = true.
Proof.
  induction p as [|c p IH]; [by destruct s|].
  rewrite append_cons. cbn [startsWith]. by rewrite Ascii.eqb_refl.
Qed.

Lemma promptParts_truthy (st : State) :
  Forall (λ p, truthy p = true) (promptParts st).
Proof.
  unfold promptParts. repeat apply Forall_app_2.
  - by repeat constructor.
  - destruct (truthy (sceneDescription st)); by repeat constructor.
  - by repeat constructor.
  - by repeat constructor.
  - destruct (truthy (integrationInstructions st)) eqn:E; by repeat constructor.
  - destruct (styleImage st); by repeat constructor.
  - destruct (hasCharacterImage st || hasElementImage st); by repeat constructor.
Qed.

(** X25: no part of the prompt is ever dropped.  Every part the composer
    pushes is a text that is not empty, so the last filter keeps them all:
    the prompt is its parts joined by one space, there are from three to
    seven of them, and the prompt starts with the sentence of the
    style. *)
Theorem prompt_parts_all_kept (st : State) :
  List.filter truthy (promptParts st) = promptParts st
  ∧ newPrompt st = join " " (promptParts st)
  ∧ (3 ≤ length (promptParts st) ≤ 7)%nat
  ∧ startsWith (newPrompt st)
      ("Generate a cinematic image in a " +:+ artisticStyle st +:+ " style.") = true.
Proof.
  pose proof (filter_truthy _ (promptParts_truthy st)) as Hf.
  assert (Hn : newPrompt st = join " " (promptParts st)) by (unfold newPrompt; by rewrite Hf).
  split; [done|]. split; [done|]. split.
  - unfold promptParts. rewrite !length_app.
    destruct (truthy (sceneDescription st)), (truthy (integrationInstructions st)),
      (styleImage st), (hasCharacterImage st || hasElementImage st);
      cbn [length]; lia.
  - rewrite Hn. unfold promptParts.
    set (core := "Generate a cinematic image in a " +:+ artisticStyle st +:+ " style.").
    cbn [app]. rewrite join_cons; [apply startsWith_append|].
    by destruct (truthy (sceneDescription st)).
Qed.

End PromptParts.
